(** * ros_atlas: transform graph and filters

    A shallow embedding of [src/transformgraph.cpp] and [src/filters.cpp].

    Conventions used throughout:
    - a C++ [double] is an exact rational ([Qc], canonical so that equality is
      Leibniz equality); rounding is not modelled;
    - a vertex descriptor of the vecS-indexed BGL graph is an index ([nat]);
      [Graph::null_vertex()] is the [None] of [option Vertex];
    - a call whose behaviour the language or the library leaves undefined (an
      index outside a vector, the null vertex used as a vertex, control
      reaching the end of a value-returning function) is an explicit
      [Undefined] outcome that names the fault;
    - [std::cout] output is left out. *)

From Stdlib Require Import QArith Qcanon Qcabs.
From Equations Require Import Equations.
From stdpp Require Import numbers base option list gmap strings.

(** ** Outcomes of a call *)

Inductive fault : Set :=
| NullVertex   (* Graph::null_vertex() used as a vertex or as an index *)
| OutOfRange   (* operator[] outside the vector *)
| NoReturn     (* control reaches the end of a function that returns a value *)
| OutOfFuel.   (* the model's bound on a loop was too small *)

Inductive outcome (A : Type) : Type :=
| Returned (a : A)
| Undefined (f : fault).
Arguments Returned {A} a.
Arguments Undefined {A} f.

Definition obind {A B} (m : outcome A) (k : A → outcome B) : outcome B :=
  match m with
  | Returned a => k a
  | Undefined f => Undefined f
  end.

Notation "x ←! m ; k" := (obind m (λ x, k))
  (at level 20, m at level 100, k at level 200, right associativity,
   format "x  ←!  m ;  '/' k").

(** A value together with the equation that names it, for the [with]
    clauses of loops defined by well-founded recursion. *)
Definition inspect {A} (a : A) : {b : A | a = b} := exist _ a eq_refl.

(** ** Graph data (transformgraph.h is not among the sources; the shapes
    below are the ones the member functions use) *)

Abbreviation Vertex := nat.

Record VertexInfo := { name : string }.

(** Modelled from the spec: [SensorData] of the absent header, a
    measurement with its key, transform and weight. The code reads [key]. *)
Record SensorData (K T : Type) := {
  key : K;
  transform : T;
  weight : Qc;
}.
Arguments key {K T} _.
Arguments transform {K T} _.
Arguments weight {K T} _.

Record EdgeInfo (K T : Type) := { sensorData : SensorData K T }.
Arguments sensorData {K T} _.

(** One stored edge of the multigraph: endpoints, the [boost::edge_weight]
    property and the bundled [EdgeInfo]. *)
Record Edge (K T : Type) := {
  source : Vertex;
  target : Vertex;
  edge_weight : Qc;
  info : EdgeInfo K T;
}.
Arguments source {K T} _.
Arguments target {K T} _.
Arguments edge_weight {K T} _.
Arguments info {K T} _.

(** [boost::labeled_graph<Graph, std::string>]: the vertex vector, the edges
    (a multigraph: a list, in insertion order, duplicates kept) and the map
    from labels to vertex descriptors. *)
Record LabeledGraph (K T : Type) := {
  vertices : list VertexInfo;
  edges : list (Edge K T);
  labels : gmap string Vertex;
}.
Arguments vertices {K T} _.
Arguments edges {K T} _.
Arguments labels {K T} _.

Module TransformGraph.
Section Graph.
Context {MeasurementKey : Type} `{!EqDecision MeasurementKey}.
Context {Transform : Type}.

(** [tf2::Transform::inverse], an operation of the tf2 library. *)
Variable inverse : Transform → Transform.
(** The contents of a [tf2::Transform()] built by the no-initialisation
    constructor. *)
Variable uninitialized : Transform.

Abbreviation Graph := (LabeledGraph MeasurementKey Transform).
Abbreviation edge := (Edge MeasurementKey Transform).

(** Modelled from the spec: [EdgeInfo::inverse] of the absent
    transformgraph.h; the mirror edge keeps the measurement key and
    carries the inverse transform. *)
Definition EdgeInfo_inverse (i : EdgeInfo MeasurementKey Transform)
  : EdgeInfo MeasurementKey Transform :=
  {| sensorData :=
       {| key := key (sensorData i);
          transform := inverse (transform (sensorData i));
          weight := weight (sensorData i) |} |}.

(** TransformGraph::TransformGraph *)
Definition empty_graph : Graph :=
  {| vertices := []; edges := []; labels := ∅ |}.

Definition num_vertices (g : Graph) : nat := length (vertices g).
Definition num_edges (g : Graph) : nat := length (edges g).

(** [boost::vertex_by_label]: the descriptor stored for the label, or
    [null_vertex()] when the label is not in the map. *)
Definition vertex_by_label (l : string) (g : Graph) : option Vertex :=
  labels g !! l.

(** [boost::add_vertex(label, g)]: the label is inserted first and a
    vertex is created only if the label was new. *)
Definition add_vertex (l : string) (g : Graph) : Graph :=
  match labels g !! l with
  | Some _ => g
  | None =>
      {| vertices := vertices g ++ [ {| name := "" |} ];
         edges := edges g;
         labels := <[ l := length (vertices g) ]> (labels g) |}
  end.

(** TransformGraph::addEntity *)
Definition addEntity (nm : string) (g : Graph) : Graph :=
  let g1 := add_vertex nm g in
  match vertex_by_label nm g1 with
  | Some v =>
      {| vertices := <[ v := {| name := nm |} ]> (vertices g1);
         edges := edges g1;
         labels := labels g1 |}
  | None => g1
  end.

(** [boost::add_edge_by_label]: both labels are resolved with no check;
    the null vertex is then used as a vertex. *)
Definition add_edge_by_label (from to : string) (w : Qc)
    (i : EdgeInfo MeasurementKey Transform) (g : Graph) : outcome Graph :=
  match vertex_by_label from g, vertex_by_label to g with
  | Some u, Some v =>
      Returned
        {| vertices := vertices g;
           edges := edges g ++
                    [ {| source := u; target := v; edge_weight := w; info := i |} ];
           labels := labels g |}
  | _, _ => Undefined NullVertex
  end.

(** [boost::remove_edge_by_label]: [remove_edge(u, v, g)] on the two
    descriptors, resolved with no check. The graph is directed (its
    selector is in the absent transformgraph.h; updateSensorData stores
    the two directions as two edges): the out-edge list of [u] is taken,
    which uses [u] as an index, and every edge in it whose target equals
    [v] is erased, so every edge from [from] to [to] goes. [v] is only
    compared with the targets; no stored edge has the null vertex as its
    target, so with a null [v] nothing is erased. *)
Definition remove_edge_by_label (from to : string) (g : Graph) : outcome Graph :=
  match vertex_by_label from g, vertex_by_label to g with
  | Some u, Some v =>
      Returned
        {| vertices := vertices g;
           edges := filter (λ e : edge, ¬ (source e = u ∧ target e = v)) (edges g);
           labels := labels g |}
  | Some u, None => Returned g
  | None, _ => Undefined NullVertex
  end.

(** TransformGraph::removeAllEdges *)
Definition removeAllEdges (from to : string) (g : Graph) : outcome Graph :=
  remove_edge_by_label from to g.

(** Modelled from the spec: [RemovePredicate] of the absent
    transformgraph.h. It matches an edge carrying the key; its [stop]
    flag records that a match was taken, and once it is set the predicate
    lets every later edge of the pass through, so a pass removes one
    matching edge ("must repeat until no matching edge remains"). *)
Definition RemovePredicate (k : MeasurementKey) (stop : bool) (e : edge)
  : bool * bool :=
  if stop then (false, true)
  else if decide (key (sensorData (info e)) = k) then (true, true)
  else (false, false).

(** [boost::remove_edge_if], the predicate's state threaded through the
    edges in order: the edges the predicate accepts are removed. *)
Fixpoint remove_edge_if (pred : bool → edge → bool * bool) (stop : bool)
    (es : list edge) : list edge * bool :=
  match es with
  | [] => ([], stop)
  | e :: es' =>
      let '(hit, stop') := pred stop e in
      let '(rest, stop'') := remove_edge_if pred stop' es' in
      (if hit then rest else e :: rest, stop'')
  end.

(** The [while (true)] loop of TransformGraph::removeEdgeByKey over the
    edge list: a fresh predicate per pass, and the loop is left when the
    pass did not set [stop]. Every further pass starts from a shorter
    list, which is what makes the recursion well founded. *)
Equations? removeEdgeByKey_loop (k : MeasurementKey) (es : list edge)
  : list edge by wf (length es) lt :=
  removeEdgeByKey_loop k es with inspect (remove_edge_if (RemovePredicate k) false es) := {
    | exist _ (es', true) E => removeEdgeByKey_loop k es'
    | exist _ (es', false) E => es' }.
Proof.
  assert (∀ l, remove_edge_if (RemovePredicate k) true l = (l, true)) as Hstopped.
  { induction l as [|x l IHl]; simpl; [done|]. by rewrite IHl. }
  clear removeEdgeByKey_loop. revert es' E.
  induction es as [|e es IH]; intros es'; simpl; [done|].
  destruct (decide (key (sensorData (info e)) = k)) as [Hk|Hk].
  - rewrite Hstopped. intros [= <-]. lia.
  - destruct (remove_edge_if (RemovePredicate k) false es) as [r s] eqn:E.
    intros [= <- ->]. specialize (IH _ eq_refl). simpl. lia.
Qed.

(** TransformGraph::removeEdgeByKey *)
Definition removeEdgeByKey (k : MeasurementKey) (g : Graph) : Graph :=
  {| vertices := vertices g;
     edges := removeEdgeByKey_loop k (edges g);
     labels := labels g |}.

(** TransformGraph::updateSensorData *)
Definition updateSensorData (from to : string)
    (sd : SensorData MeasurementKey Transform) (g : Graph) : outcome Graph :=
  let g0 := removeEdgeByKey (key sd) g in
  let i := {| sensorData := sd |} in
  g1 ←! add_edge_by_label from to 1%Qc i g0;
  add_edge_by_label to from 1%Qc (EdgeInfo_inverse i) g1.

(** TransformGraph::numberOfEdges *)
Definition numberOfEdges (g : Graph) : nat := num_edges g.

(** *** Path queries *)

(** The predecessor of every vertex as [boost::dijkstra_shortest_paths]
    computes it for a graph and a start vertex: the routine belongs to
    the Boost Graph Library and is a parameter here. [dijkstra_contract]
    below is what its documentation promises, and
    [Dijkstra.dijkstra_predecessors] is an implementation that keeps it, to
    evaluate with. *)
Variable dijkstra_predecessors : Graph → Vertex → Vertex → Vertex.

(** The call [dijkstra_shortest_paths(g, start, predecessor_map(&p[0]))]:
    the routine writes [p[v]] for every vertex [v] of the graph through the
    pointer, whatever the length of the vector behind it, and then uses
    [start] as a vertex. Cells past the last vertex keep their value. The
    distance vector has the same length, is written at the same indices and
    is only printed; it is left out. *)
Definition dijkstra_shortest_paths (g : Graph) (start : option Vertex)
    (p : list Vertex) : outcome (list Vertex) :=
  match p with
  | [] => Undefined OutOfRange
  | _ :: _ =>
      if decide (num_vertices g ≤ length p) then
        match start with
        | None => Undefined NullVertex
        | Some s =>
            if decide (s < num_vertices g) then
              Returned ((dijkstra_predecessors g s <$> seq 0 (num_vertices g))
                        ++ drop (num_vertices g) p)
            else Undefined OutOfRange
        end
      else Undefined OutOfRange
  end.

(** [boost::edge(u, v, g)]: an edge from [u] to [v] if there is one. *)
Definition edge_between (u v : Vertex) (g : Graph) : option edge :=
  head (filter (λ e : edge, source e = u ∧ target e = v) (edges g)).

(** The loop that travels from the goal to the start along [p]
    (lines 79 to 92): [v] is the current vertex, and the result lists the
    edges in the order of [push_back], the edge into the goal first. A
    step for which [boost::edge] finds nothing is skipped. *)
Fixpoint travel (fuel : nat) (p : list Vertex) (g : Graph) (v : Vertex)
    : outcome (list edge) :=
  match p !! v with
  | None => Undefined OutOfRange
  | Some u =>
      if decide (u = v) then Returned []
      else
        match fuel with
        | 0 => Undefined OutOfFuel
        | S fuel' =>
            rest ←! travel fuel' p g u;
            Returned (match edge_between u v g with
                      | Some e => e :: rest
                      | None => rest
                      end)
        end
  end.

(** [m_graph.graph()[v].name] *)
Definition vertex_name (g : Graph) (v : Vertex) : outcome string :=
  match vertices g !! v with
  | Some i => Returned (name i)
  | None => Undefined OutOfRange
  end.

(** The loop over the reversed path (lines 95 to 111): the first edge
    gives its source and its target, every later edge its target. *)
Fixpoint verticesInPath (g : Graph) (first : bool) (path : list edge)
    : outcome (list string) :=
  match path with
  | [] => Returned []
  | e :: rest =>
      sourceName ←! vertex_name g (source e);
      targetName ←! vertex_name g (target e);
      more ←! verticesInPath g false rest;
      Returned ((if first then [sourceName] else []) ++ targetName :: more)
  end.

(** TransformGraph::lookupPath. [fuel] bounds the iterations of the
    travel loop. The vector [p] has one cell per edge of the graph. *)
Definition lookupPath (fuel : nat) (from to : string) (g : Graph)
    : outcome (list string) :=
  let p0 := replicate (num_edges g) 0 in
  let start := vertex_by_label from g in
  let goal := vertex_by_label to g in
  p ←! dijkstra_shortest_paths g start p0;
  match goal with
  | None => Undefined NullVertex
  | Some v =>
      path ←! travel fuel p g v;
      verticesInPath g true (reverse path)
  end.

(** TransformGraph::lookupTransform: the only [return] is the one of the
    empty path; with a path, control reaches the closing brace. *)
Definition lookupTransform (fuel : nat) (from to : string) (g : Graph)
    : outcome Transform :=
  path ←! lookupPath fuel from to g;
  match path with
  | [] => Returned uninitialized
  | _ :: _ => Undefined NoReturn
  end.

(** TransformGraph::canTransform *)
Definition canTransform (fuel : nat) (from to : string) (g : Graph)
    : outcome bool :=
  path ←! lookupPath fuel from to g;
  Returned (match path with [] => false | _ :: _ => true end).

(** *** Vocabulary of the statements *)

(** The name stored at a vertex. *)
Definition name_of (g : Graph) (v : Vertex) : string :=
  match vertices g !! v with Some i => name i | None => "" end.

(** The measurement key an edge carries. *)
Definition edge_key (e : edge) : MeasurementKey := key (sensorData (info e)).

Definition has_edge (g : Graph) (u v : Vertex) : Prop :=
  ∃ e : edge, e ∈ edges g ∧ source e = u ∧ target e = v.

Inductive reachable (g : Graph) (s : Vertex) : Vertex → Prop :=
| reachable_refl : reachable g s s
| reachable_step u v : reachable g s u → has_edge g u v → reachable g s v.

(** [is_walk g vs]: consecutive vertices of [vs] are joined by an edge. *)
Fixpoint is_walk (g : Graph) (vs : list Vertex) : Prop :=
  match vs with
  | u :: ((v :: _) as rest) => has_edge g u v ∧ is_walk g rest
  | _ => True
  end.

(** The chain of predecessors from [v] back to the root [s], listed from
    [s] to [v]. *)
Inductive pred_path (g : Graph) (pred : Vertex → Vertex) (s : Vertex)
  : Vertex → list Vertex → Prop :=
| pred_path_root : pred s = s → pred_path g pred s s [s]
| pred_path_step v vs :
    pred v ≠ v → has_edge g (pred v) v →
    pred_path g pred s (pred v) vs →
    pred_path g pred s v (vs ++ [v]).

(** What the Boost documentation promises of the predecessor map: the
    start is its own predecessor; [(p[v], v)] is an edge of the shortest
    path tree for every other vertex the search reached; and [p[v] = v]
    only for the start and for the vertices that cannot be reached. *)
Record dijkstra_contract (g : Graph) (s : Vertex) (pred : Vertex → Vertex)
  : Prop := {
  dc_root : pred s = s;
  dc_range : ∀ v, v < num_vertices g → pred v < num_vertices g;
  dc_tree : ∀ v, v < num_vertices g → pred v ≠ v →
            ∃ vs, pred_path g pred s v vs;
  dc_reached : ∀ v, v < num_vertices g → reachable g s v → v ≠ s → pred v ≠ v;
}.

(** The state a graph is in between calls: every label names the vertex
    that carries it, edges join existing vertices, and every edge has
    weight one. *)
Record graph_ok (g : Graph) : Prop := {
  ok_labels : ∀ l v, labels g !! l = Some v →
              vertices g !! v = Some {| name := l |};
  ok_edges : ∀ e : edge, e ∈ edges g →
             source e < num_vertices g ∧ target e < num_vertices g;
  ok_weights : ∀ e : edge, e ∈ edges g → edge_weight e = 1%Qc;
}.

(** The states the member functions can produce from the constructor's. *)
Inductive reachable_graph : Graph → Prop :=
| rg_new : reachable_graph empty_graph
| rg_addEntity nm g :
    reachable_graph g → reachable_graph (addEntity nm g)
| rg_updateSensorData from to sd g g' :
    reachable_graph g → updateSensorData from to sd g = Returned g' →
    reachable_graph g'
| rg_removeAllEdges from to g g' :
    reachable_graph g → removeAllEdges from to g = Returned g' →
    reachable_graph g'
| rg_removeEdgeByKey k g :
    reachable_graph g → reachable_graph (removeEdgeByKey k g).

(** The cost the shortest-path search adds up along a path. *)
Definition path_cost (path : list edge) : Qc :=
  foldr (λ e acc, (edge_weight e + acc)%Qc) 0%Qc path.

(** One call of a member function that changes the graph. *)
Inductive call : Graph → Graph → Prop :=
| call_addEntity nm g : call g (addEntity nm g)
| call_updateSensorData from to sd g g' :
    updateSensorData from to sd g = Returned g' → call g g'
| call_removeAllEdges from to g g' :
    removeAllEdges from to g = Returned g' → call g g'
| call_removeEdgeByKey k g : call g (removeEdgeByKey k g).

(** Labels and vertices correspond one to one: a label leads to the
    vertex that carries it as its name, and every vertex has its label. *)
Definition frames_ok (g : Graph) : Prop :=
  ∀ l v, labels g !! l = Some v ↔ vertices g !! v = Some {| name := l |}.

(** [e'] runs against [e] with the same key, and one of the two carries
    the inverse of the other's transform. *)
Definition mirror_of (e e' : edge) : Prop :=
  source e' = target e ∧ target e' = source e ∧ edge_key e' = edge_key e ∧
  (transform (sensorData (info e')) = inverse (transform (sensorData (info e)))
   ∨ transform (sensorData (info e)) = inverse (transform (sensorData (info e')))).

(** Every edge of the graph has its mirror in the graph. *)
Definition mirrored (g : Graph) : Prop :=
  ∀ e : edge, e ∈ edges g → ∃ e' : edge, e' ∈ edges g ∧ mirror_of e e'.

(** The edges that carry a key. *)
Definition edges_with_key (k : MeasurementKey) (g : Graph) : list edge :=
  filter (λ e : edge, edge_key e = k) (edges g).

End Graph.
End TransformGraph.

(** ** Vectors and quaternions of tf2 and Eigen *)

Record Vector3 := { v3_x : Qc; v3_y : Qc; v3_z : Qc }.

(** [tf2::Quaternion], in the order of its constructor: x, y, z, w. *)
Record Quaternion := { q_x : Qc; q_y : Qc; q_z : Qc; q_w : Qc }.

(** [Eigen::Vector4d] *)
Record Vector4d := { c0 : Qc; c1 : Qc; c2 : Qc; c3 : Qc }.

(** A 4x4 matrix, by rows. *)
Record Matrix4d := { r0 : Vector4d; r1 : Vector4d; r2 : Vector4d; r3 : Vector4d }.

Definition v3_zero : Vector3 := {| v3_x := 0%Qc; v3_y := 0%Qc; v3_z := 0%Qc |}.

Definition v3_scale (a : Qc) (v : Vector3) : Vector3 :=
  {| v3_x := (a * v3_x v)%Qc; v3_y := (a * v3_y v)%Qc; v3_z := (a * v3_z v)%Qc |}.

(** [v * a], the scalar on the right. *)
Definition v3_times (v : Vector3) (a : Qc) : Vector3 :=
  {| v3_x := (v3_x v * a)%Qc; v3_y := (v3_y v * a)%Qc; v3_z := (v3_z v * a)%Qc |}.

Definition v3_add (u v : Vector3) : Vector3 :=
  {| v3_x := (v3_x u + v3_x v)%Qc;
     v3_y := (v3_y u + v3_y v)%Qc;
     v3_z := (v3_z u + v3_z v)%Qc |}.

Definition v3_div (v : Vector3) (a : Qc) : Vector3 :=
  {| v3_x := (v3_x v / a)%Qc; v3_y := (v3_y v / a)%Qc; v3_z := (v3_z v / a)%Qc |}.

(** [Pose]: a position and a rotation. *)
Record Pose := { pos : Vector3; rot : Quaternion }.

Definition q_identity : Quaternion :=
  {| q_x := 0%Qc; q_y := 0%Qc; q_z := 0%Qc; q_w := 1%Qc |}.

(** [-q], the quaternion with every component negated: the same
    rotation. *)
Definition q_neg (q : Quaternion) : Quaternion :=
  {| q_x := (- q_x q)%Qc; q_y := (- q_y q)%Qc;
     q_z := (- q_z q)%Qc; q_w := (- q_w q)%Qc |}.

Definition v4_zero : Vector4d := {| c0 := 0%Qc; c1 := 0%Qc; c2 := 0%Qc; c3 := 0%Qc |}.

Definition v4_scale (a : Qc) (v : Vector4d) : Vector4d :=
  {| c0 := (a * c0 v)%Qc; c1 := (a * c1 v)%Qc;
     c2 := (a * c2 v)%Qc; c3 := (a * c3 v)%Qc |}.

Definition v4_add (u v : Vector4d) : Vector4d :=
  {| c0 := (c0 u + c0 v)%Qc; c1 := (c1 u + c1 v)%Qc;
     c2 := (c2 u + c2 v)%Qc; c3 := (c3 u + c3 v)%Qc |}.

(** [v[i]] for [i] from 0 to 3. *)
Definition v4_coeff (v : Vector4d) (i : nat) : Qc :=
  match i with 0 => c0 v | 1 => c1 v | 2 => c2 v | _ => c3 v end.

(** [m.col(i)] for [i] from 0 to 3. *)
Definition m4_col (m : Matrix4d) (i : nat) : Vector4d :=
  {| c0 := v4_coeff (r0 m) i; c1 := v4_coeff (r1 m) i;
     c2 := v4_coeff (r2 m) i; c3 := v4_coeff (r3 m) i |}.

(** [M * M.transpose()] for the 4xN matrix with the given columns: row [i]
    is the sum over the columns [c] of [c[i] * c]. With no column the
    product is the zero matrix. *)
Definition gram_row (cols : list Vector4d) (i : nat) : Vector4d :=
  foldl (λ acc c, v4_add acc (v4_scale (v4_coeff c i) c)) v4_zero cols.

Definition m4_zero : Matrix4d :=
  {| r0 := v4_zero; r1 := v4_zero; r2 := v4_zero; r3 := v4_zero |}.

Definition gram (cols : list Vector4d) : Matrix4d :=
  {| r0 := gram_row cols 0; r1 := gram_row cols 1;
     r2 := gram_row cols 2; r3 := gram_row cols 3 |}.

(** ** WeightedMean (filters.cpp) *)

Module WeightedMean.

Record state := {
  m_vectorWeightedSum : Vector3;
  m_vectorWeights : Qc;
  m_quats : list Vector4d;   (* the columns of the 4xN matrix *)
}.

(** WeightedMean::reset *)
Definition reset (st : state) : state :=
  {| m_vectorWeightedSum := v3_zero; m_vectorWeights := 0%Qc; m_quats := [] |}.

(** Modelled from the spec: the member initialisers of the absent
    filters.h; a new accumulator holds no sample, which is the state
    [reset] writes. *)
Definition new : state :=
  {| m_vectorWeightedSum := v3_zero; m_vectorWeights := 0%Qc; m_quats := [] |}.

(** WeightedMean::addVec3 *)
Definition addVec3 (vec : Vector3) (weight : Qc) (st : state) : state :=
  {| m_vectorWeightedSum := v3_add (m_vectorWeightedSum st) (v3_times vec weight);
     m_vectorWeights := (m_vectorWeights st + weight)%Qc;
     m_quats := m_quats st |}.

(** WeightedMean::addQuat *)
Definition addQuat (quat : Quaternion) (weight : Qc) (st : state) : state :=
  {| m_vectorWeightedSum := m_vectorWeightedSum st;
     m_vectorWeights := m_vectorWeights st;
     m_quats := m_quats st ++
                [ v4_scale weight
                    {| c0 := q_x quat; c1 := q_y quat; c2 := q_z quat; c3 := q_w quat |} ] |}.

(** WeightedMean::weightedMeanVec3 *)
Definition weightedMeanVec3 (st : state) : Vector3 :=
  if decide (m_vectorWeights st = 0%Qc) then v3_zero
  else v3_div (m_vectorWeightedSum st) (m_vectorWeights st).

(** What [Eigen::SelfAdjointEigenSolver] hands back for a 4x4 matrix: the
    four eigenvalues and the matrix whose columns are the eigenvectors. *)
Record eigen := { eigenvalues : Vector4d; eigenvectors : Matrix4d }.

(** The search for the eigenvalue of largest magnitude, lines 72 to 82:
    the state is [(index, maxVal)]. *)
Definition largest_step (ev : Vector4d) (acc : nat * Qc) (i : nat) : nat * Qc :=
  if decide (acc.2 < Qcabs (v4_coeff ev i))%Qc
  then (i, Qcabs (v4_coeff ev i))
  else acc.

Definition largest_index (ev : Vector4d) : nat :=
  (foldl (largest_step ev) (0, (- 1)%Qc) (seq 0 4)).1.

Section Solver.
(** The eigen-decomposition is Eigen's; it is a parameter. *)
Variable SelfAdjointEigenSolver : Matrix4d → eigen.

(** WeightedMean::weightedMeanQuat *)
Definition weightedMeanQuat (st : state) : Quaternion :=
  let solver := SelfAdjointEigenSolver (gram (m_quats st)) in
  let index := largest_index (eigenvalues solver) in
  let eigenvec := m4_col (eigenvectors solver) index in
  {| q_x := c0 eigenvec; q_y := c1 eigenvec; q_z := c2 eigenvec; q_w := c3 eigenvec |}.
End Solver.

(** The weighted samples pushed into an accumulator, oldest first. *)
Definition addVec3s (samples : list (Vector3 * Qc)) (st : state) : state :=
  foldl (λ s vw, addVec3 vw.1 vw.2 s) st samples.

Definition weighted_sum (samples : list (Vector3 * Qc)) : Vector3 :=
  foldl (λ acc vw, v3_add acc (v3_times vw.1 vw.2)) v3_zero samples.

Definition total_weight (samples : list (Vector3 * Qc)) : Qc :=
  foldl (λ acc vw, (acc + vw.2)%Qc) 0%Qc samples.

End WeightedMean.

(** ** ExplonentialMovingAverageFilter (filters.cpp) *)

Module ExplonentialMovingAverageFilter.

(** [ros::Time] and [ros::Duration] are counts of nanoseconds. *)
Record state := {
  m_alpha : Qc;
  m_timeout : Z;
  m_scalarAccu : Qc;
  m_vectorAccu : Vector3;
  m_quatAccu : Quaternion;
  m_scalarInitialized : bool;
  m_vecInitialized : bool;
  m_quatInitialized : bool;
  m_timeOfLastValue : Z;
}.

(** Modelled from the spec: the member initialisers of the absent
    filters.h behind the constructor [(alpha, timeout)]: no channel is
    initialised, and the estimates hold the defaults the spec names (zero
    scalar, zero vector, identity rotation). *)
Definition new (alpha : Qc) (timeout : Z) : state :=
  {| m_alpha := alpha; m_timeout := timeout;
     m_scalarAccu := 0%Qc; m_vectorAccu := v3_zero; m_quatAccu := q_identity;
     m_scalarInitialized := false; m_vecInitialized := false;
     m_quatInitialized := false; m_timeOfLastValue := 0%Z |}.

(** ExplonentialMovingAverageFilter::reset *)
Definition reset (st : state) : state :=
  {| m_alpha := m_alpha st; m_timeout := m_timeout st;
     m_scalarAccu := m_scalarAccu st; m_vectorAccu := m_vectorAccu st;
     m_quatAccu := m_quatAccu st;
     m_scalarInitialized := false; m_vecInitialized := false;
     m_quatInitialized := false;
     m_timeOfLastValue := m_timeOfLastValue st |}.

(** ExplonentialMovingAverageFilter::checkReinit; [now] is what
    [ros::Time::now()] returns there. *)
Definition checkReinit (now : Z) (st : state) : state :=
  if decide (m_timeout st = 0%Z) then st
  else if decide (m_timeout st ≤ now - m_timeOfLastValue st)%Z then reset st
  else st.

Definition set_scalar (x : Qc) (now : Z) (st : state) : state :=
  {| m_alpha := m_alpha st; m_timeout := m_timeout st;
     m_scalarAccu := x; m_vectorAccu := m_vectorAccu st;
     m_quatAccu := m_quatAccu st;
     m_scalarInitialized := true; m_vecInitialized := m_vecInitialized st;
     m_quatInitialized := m_quatInitialized st;
     m_timeOfLastValue := now |}.

Definition set_vec3 (v : Vector3) (now : Z) (st : state) : state :=
  {| m_alpha := m_alpha st; m_timeout := m_timeout st;
     m_scalarAccu := m_scalarAccu st; m_vectorAccu := v;
     m_quatAccu := m_quatAccu st;
     m_scalarInitialized := m_scalarInitialized st; m_vecInitialized := true;
     m_quatInitialized := m_quatInitialized st;
     m_timeOfLastValue := now |}.

Definition set_quat (q : Quaternion) (now : Z) (st : state) : state :=
  {| m_alpha := m_alpha st; m_timeout := m_timeout st;
     m_scalarAccu := m_scalarAccu st; m_vectorAccu := m_vectorAccu st;
     m_quatAccu := q;
     m_scalarInitialized := m_scalarInitialized st;
     m_vecInitialized := m_vecInitialized st; m_quatInitialized := true;
     m_timeOfLastValue := now |}.

(** ExplonentialMovingAverageFilter::addScalar. The clock is read twice:
    [now] in [checkReinit], [now'] for [m_timeOfLastValue]. *)
Definition addScalar (scalar : Qc) (now now' : Z) (st : state) : state :=
  let st1 := checkReinit now st in
  if m_scalarInitialized st1
  then set_scalar (m_alpha st1 * scalar + (1 - m_alpha st1) * m_scalarAccu st1)%Qc now' st1
  else set_scalar scalar now' st1.

(** ExplonentialMovingAverageFilter::addVec3 *)
Definition addVec3 (vec : Vector3) (now now' : Z) (st : state) : state :=
  let st1 := checkReinit now st in
  if m_vecInitialized st1
  then set_vec3 (v3_add (v3_scale (m_alpha st1) vec)
                        (v3_scale (1 - m_alpha st1)%Qc (m_vectorAccu st1))) now' st1
  else set_vec3 vec now' st1.

Section Slerp.
(** [tf2::Quaternion::slerp], an operation of the tf2 library. *)
Variable slerp : Quaternion → Quaternion → Qc → Quaternion.

(** ExplonentialMovingAverageFilter::addQuat *)
Definition addQuat (quat : Quaternion) (now now' : Z) (st : state) : state :=
  let st1 := checkReinit now st in
  if m_quatInitialized st1
  then set_quat (slerp (m_quatAccu st1) quat (m_alpha st1)) now' st1
  else set_quat quat now' st1.

(** ExplonentialMovingAverageFilter::addPose: the position, then the
    rotation, each with its own two readings of the clock. *)
Definition addPose (pose : Pose) (t1 t1' t2 t2' : Z) (st : state) : state :=
  addQuat (rot pose) t2 t2' (addVec3 (pos pose) t1 t1' st).
End Slerp.

(** ExplonentialMovingAverageFilter::scalar *)
Definition scalar (st : state) : Qc := m_scalarAccu st.

(** ExplonentialMovingAverageFilter::vec3 *)
Definition vec3 (st : state) : Vector3 := m_vectorAccu st.

(** ExplonentialMovingAverageFilter::quat *)
Definition quat (st : state) : Quaternion := m_quatAccu st.

(** ExplonentialMovingAverageFilter::pose *)
Definition pose (st : state) : Pose := {| pos := vec3 st; rot := quat st |}.

(** ExplonentialMovingAverageFilter::timeOfLastValue *)
Definition timeOfLastValue (st : state) : Z := m_timeOfLastValue st.

(** ExplonentialMovingAverageFilter::setAlpha *)
Definition setAlpha (alpha : Qc) (st : state) : state :=
  {| m_alpha := alpha; m_timeout := m_timeout st;
     m_scalarAccu := m_scalarAccu st; m_vectorAccu := m_vectorAccu st;
     m_quatAccu := m_quatAccu st;
     m_scalarInitialized := m_scalarInitialized st;
     m_vecInitialized := m_vecInitialized st;
     m_quatInitialized := m_quatInitialized st;
     m_timeOfLastValue := m_timeOfLastValue st |}.

(** ExplonentialMovingAverageFilter::alpha *)
Definition alpha (st : state) : Qc := m_alpha st.

(** ExplonentialMovingAverageFilter::setTimeout *)
Definition setTimeout (timeout : Z) (st : state) : state :=
  {| m_alpha := m_alpha st; m_timeout := timeout;
     m_scalarAccu := m_scalarAccu st; m_vectorAccu := m_vectorAccu st;
     m_quatAccu := m_quatAccu st;
     m_scalarInitialized := m_scalarInitialized st;
     m_vecInitialized := m_vecInitialized st;
     m_quatInitialized := m_quatInitialized st;
     m_timeOfLastValue := m_timeOfLastValue st |}.

(** A channel takes the next sample as its first one when its flag is
    down, or when a nonzero timeout has run out at the time of the call. *)
Definition takes_first (initialized : bool) (now : Z) (st : state) : Prop :=
  initialized = false ∨
  (m_timeout st ≠ 0%Z ∧ (m_timeout st ≤ now - m_timeOfLastValue st)%Z).

(** The history of the filter is kept at a call: the timeout is off, or
    it has not run out. *)
Definition keeps_history (now : Z) (st : state) : Prop :=
  m_timeout st = 0%Z ∨ (now - m_timeOfLastValue st < m_timeout st)%Z.

(** A run of calls of addScalar, oldest first: each call with its sample
    and the two readings of the clock it makes. *)
Definition addScalars (calls : list (Qc * Z * Z)) (st : state) : state :=
  foldl (λ s c, addScalar c.1.1 c.1.2 c.2 s) st calls.

(** The history is kept at every call of a run: the timeout is off, or
    each call comes less than a timeout after the stamp the call before
    it has left; [last] is the stamp before the first call. *)
Fixpoint keeps_history_all (timeout last : Z) (calls : list (Qc * Z * Z)) : Prop :=
  match calls with
  | [] => True
  | c :: rest =>
      (timeout = 0%Z ∨ (c.1.2 - last < timeout)%Z) ∧
      keeps_history_all timeout c.2 rest
  end.

End ExplonentialMovingAverageFilter.

(** ** A shortest-path search to stand for the library's

    Dijkstra's algorithm over the edge list, with the colours of the
    library's search: a vertex is closed when it is taken from the open
    ones, its out-edges are relaxed at that moment, and an edge into a
    closed vertex is left alone. *)

Module Dijkstra.
Section Search.
Context {K T : Type}.

(** One cell per vertex: the tentative distance (none while the vertex has
    not been reached), the predecessor and whether the vertex is closed. *)
Record cell := { c_dist : option Qc; c_pred : Vertex; c_closed : bool }.

Definition init_cells (n : nat) (s : Vertex) : list cell :=
  (λ v, {| c_dist := if decide (v = s) then Some 0%Qc else None;
           c_pred := v; c_closed := false |}) <$> seq 0 n.

(** The open vertex of least distance, the lowest index first. *)
Definition better (best : option (Vertex * Qc)) (v : Vertex) (c : cell)
    : option (Vertex * Qc) :=
  match c_dist c with
  | Some d =>
      if c_closed c then best
      else match best with
           | Some (_, db) => if decide (d < db)%Qc then Some (v, d) else best
           | None => Some (v, d)
           end
  | None => best
  end.

Fixpoint scan (v : Vertex) (cells : list cell) (best : option (Vertex * Qc))
    : option (Vertex * Qc) :=
  match cells with
  | [] => best
  | c :: cells' => scan (S v) cells' (better best v c)
  end.

Definition pick (cells : list cell) : option (Vertex * Qc) := scan 0 cells None.

Definition close (u : Vertex) (cells : list cell) : list cell :=
  alter (λ c, {| c_dist := c_dist c; c_pred := c_pred c; c_closed := true |}) u cells.

(** Relaxation of one edge out of [u], whose distance is [du]. *)
Definition relax (u : Vertex) (du : Qc) (cells : list cell) (e : Edge K T)
    : list cell :=
  if decide (source e = u) then
    match cells !! target e with
    | Some c =>
        if c_closed c then cells
        else
          let nd := (du + edge_weight e)%Qc in
          let improved :=
            match c_dist c with
            | Some d => bool_decide (nd < d)%Qc
            | None => true
            end in
          if improved
          then <[ target e := {| c_dist := Some nd; c_pred := u; c_closed := false |} ]> cells
          else cells
    | None => cells
    end
  else cells.

Fixpoint search (fuel : nat) (es : list (Edge K T)) (cells : list cell)
    : list cell :=
  match fuel with
  | 0 => cells
  | S fuel' =>
      match pick cells with
      | Some (u, du) => search fuel' es (foldl (relax u du) (close u cells) es)
      | None => cells
      end
  end.

Definition pred_of (cells : list cell) (v : Vertex) : Vertex :=
  match cells !! v with
  | Some c => c_pred c
  | None => v
  end.

Definition dijkstra_predecessors (g : LabeledGraph K T) (s v : Vertex) : Vertex :=
  let n := length (vertices g) in
  pred_of (search n (edges g) (init_cells n s)) v.

(** What the cells say of a vertex. *)
Definition reached_at (cells : list cell) (v : Vertex) : Prop :=
  ∃ c d, cells !! v = Some c ∧ c_dist c = Some d.

Definition closed_at (cells : list cell) (v : Vertex) : Prop :=
  ∃ c, cells !! v = Some c ∧ c_closed c = true.

(** What relaxing the edges [es] out of [u] may have done to the cells. *)
Record relaxed_from (u : Vertex) (es : list (Edge K T))
    (cells cells' : list cell) : Prop := {
  rf_length : length cells' = length cells;
  rf_closed : ∀ v, closed_at cells' v ↔ closed_at cells v;
  rf_mono : ∀ v, reached_at cells v → reached_at cells' v;
  rf_cell : ∀ v,
    (pred_of cells' v = pred_of cells v ∧ (reached_at cells' v → reached_at cells v))
    ∨ (pred_of cells' v = u ∧ reached_at cells' v ∧ ¬ closed_at cells v ∧
       ∃ e, e ∈ es ∧ source e = u ∧ target e = v);
  rf_done : ∀ e, e ∈ es → source e = u → target e < length cells →
            closed_at cells (target e) ∨ reached_at cells' (target e);
}.

(** The state of the search: [order] lists the closed vertices in the
    order in which they were closed. *)
Record search_inv (g : LabeledGraph K T) (s : Vertex) (cells : list cell)
    (order : list Vertex) : Prop := {
  si_length : length cells = length (vertices g);
  si_start : s < length (vertices g);
  si_order : ∀ v, closed_at cells v ↔ v ∈ order;
  si_nodup : NoDup order;
  si_root : pred_of cells s = s ∧ reached_at cells s;
  si_fresh : order = [] → ∀ v, reached_at cells v → v = s;
  si_started : order ≠ [] → s ∈ order;
  si_pred : ∀ v, v ≠ s → (reached_at cells v ↔ pred_of cells v ≠ v);
  si_closed : ∀ v, v ∈ order → reached_at cells v;
  si_tree : ∀ v, pred_of cells v ≠ v →
            TransformGraph.has_edge g (pred_of cells v) v ∧
            ∃ i, order !! i = Some (pred_of cells v) ∧
                 ∀ j, order !! j = Some v → i < j;
  si_closure : ∀ u v, u ∈ order → TransformGraph.has_edge g u v →
               v < length (vertices g) → reached_at cells v;
}.

End Search.
End Dijkstra.

(** ** Reference instances, to evaluate the model on concrete inputs *)

Module Reference.

(** [tf2::Transform] over the rationals: a basis and an origin. *)
Record Matrix3x3 := { m3_r0 : Vector3; m3_r1 : Vector3; m3_r2 : Vector3 }.

Record Transform := { m_basis : Matrix3x3; m_origin : Vector3 }.

Definition v3_dot (u v : Vector3) : Qc :=
  (v3_x u * v3_x v + v3_y u * v3_y v + v3_z u * v3_z v)%Qc.

Definition m3_transpose (m : Matrix3x3) : Matrix3x3 :=
  {| m3_r0 := {| v3_x := v3_x (m3_r0 m); v3_y := v3_x (m3_r1 m); v3_z := v3_x (m3_r2 m) |};
     m3_r1 := {| v3_x := v3_y (m3_r0 m); v3_y := v3_y (m3_r1 m); v3_z := v3_y (m3_r2 m) |};
     m3_r2 := {| v3_x := v3_z (m3_r0 m); v3_y := v3_z (m3_r1 m); v3_z := v3_z (m3_r2 m) |} |}.

Definition m3_apply (m : Matrix3x3) (v : Vector3) : Vector3 :=
  {| v3_x := v3_dot (m3_r0 m) v; v3_y := v3_dot (m3_r1 m) v; v3_z := v3_dot (m3_r2 m) v |}.

Definition m3_identity : Matrix3x3 :=
  {| m3_r0 := {| v3_x := 1%Qc; v3_y := 0%Qc; v3_z := 0%Qc |};
     m3_r1 := {| v3_x := 0%Qc; v3_y := 1%Qc; v3_z := 0%Qc |};
     m3_r2 := {| v3_x := 0%Qc; v3_y := 0%Qc; v3_z := 1%Qc |} |}.

(** [tf2::Transform::inverse]: the transposed basis, applied to the
    negated origin. *)
Definition inverse (t : Transform) : Transform :=
  let inv := m3_transpose (m_basis t) in
  {| m_basis := inv; m_origin := m3_apply inv (v3_scale (- 1)%Qc (m_origin t)) |}.

(** A translation along the axes. *)
Definition translation (x y z : Z) : Transform :=
  {| m_basis := m3_identity;
     m_origin := {| v3_x := Qc_of_Z x; v3_y := Qc_of_Z y; v3_z := Qc_of_Z z |} |}.

(** Some contents for a transform that was never initialised. *)
Definition stale_memory : Transform :=
  {| m_basis := {| m3_r0 := v3_zero; m3_r1 := v3_zero; m3_r2 := v3_zero |};
     m_origin := v3_zero |}.

Abbreviation Graph := (LabeledGraph string Transform).
Abbreviation edge := (Edge string Transform).

Definition dijkstra_predecessors : Graph → Vertex → Vertex → Vertex :=
  Dijkstra.dijkstra_predecessors.

(** *** An eigen-decomposition for diagonal matrices: the diagonal and the
    unit vectors. The zero matrix is one of them. *)
Definition diagonal_solver (m : Matrix4d) : WeightedMean.eigen :=
  {| WeightedMean.eigenvalues :=
       {| c0 := c0 (r0 m); c1 := c1 (r1 m); c2 := c2 (r2 m); c3 := c3 (r3 m) |};
     WeightedMean.eigenvectors :=
       {| r0 := {| c0 := 1%Qc; c1 := 0%Qc; c2 := 0%Qc; c3 := 0%Qc |};
          r1 := {| c0 := 0%Qc; c1 := 1%Qc; c2 := 0%Qc; c3 := 0%Qc |};
          r2 := {| c0 := 0%Qc; c1 := 0%Qc; c2 := 1%Qc; c3 := 0%Qc |};
          r3 := {| c0 := 0%Qc; c1 := 0%Qc; c2 := 0%Qc; c3 := 1%Qc |} |} |}.

(** A linear blend in the place of [slerp]; no statement depends on what
    the interpolation computes. *)
Definition blend (a b : Quaternion) (t : Qc) : Quaternion :=
  {| q_x := ((1 - t) * q_x a + t * q_x b)%Qc;
     q_y := ((1 - t) * q_y a + t * q_y b)%Qc;
     q_z := ((1 - t) * q_z a + t * q_z b)%Qc;
     q_w := ((1 - t) * q_w a + t * q_w b)%Qc |}.

(** *** The scenario of the spec: frames A, B and C, a measurement "s1"
    between A and B and a measurement "s2" between B and C. *)
Definition reading (k : string) (t : Transform) (w : Qc) : SensorData string Transform :=
  {| key := k; transform := t; weight := w |}.

Definition frames_ABC : Graph :=
  TransformGraph.addEntity "C"
    (TransformGraph.addEntity "B"
       (TransformGraph.addEntity "A" TransformGraph.empty_graph)).

Definition s1 : SensorData string Transform := reading "s1" (translation 1 0 0) 1%Qc.
Definition s2 : SensorData string Transform := reading "s2" (translation 0 2 0) 1%Qc.

Definition mk_edge (u v : Vertex) (sd : SensorData string Transform) : edge :=
  {| source := u; target := v; edge_weight := 1%Qc; info := {| sensorData := sd |} |}.

Definition mirror (sd : SensorData string Transform) : SensorData string Transform :=
  {| key := key sd; transform := inverse (transform sd); weight := weight sd |}.

Definition scenario : Graph :=
  {| vertices := [ {| name := "A" |}; {| name := "B" |}; {| name := "C" |} ];
     edges := [ mk_edge 0 1 s1; mk_edge 1 0 (mirror s1);
                mk_edge 1 2 s2; mk_edge 2 1 (mirror s2) ];
     labels := <[ "C" := 2 ]> (<[ "B" := 1 ]> (<[ "A" := 0 ]> ∅)) |}.

(** The scenario after its first measurement only: three vertices, two
    edges. *)
Definition after_s1 : Graph :=
  {| vertices := vertices scenario;
     edges := [ mk_edge 0 1 s1; mk_edge 1 0 (mirror s1) ];
     labels := labels scenario |}.

(** Two frames and one measurement between them. *)
Definition frames_AB : Graph :=
  TransformGraph.addEntity "B" (TransformGraph.addEntity "A" TransformGraph.empty_graph).

Definition pair_AB : Graph :=
  {| vertices := [ {| name := "A" |}; {| name := "B" |} ];
     edges := [ mk_edge 0 1 s1; mk_edge 1 0 (mirror s1) ];
     labels := <[ "B" := 1 ]> (<[ "A" := 0 ]> ∅) |}.

(** A filter with smoothing factor one half and a timeout of five
    nanoseconds that took the sample 10 at time 0. *)
Definition warm_filter : ExplonentialMovingAverageFilter.state :=
  ExplonentialMovingAverageFilter.addScalar (Qc_of_Z 10) 0 0
    (ExplonentialMovingAverageFilter.new (1 / 2)%Qc 5).

End Reference.

(** * Properties *)

Import TransformGraph.

Section GraphFacts.
Context {MeasurementKey : Type} `{!EqDecision MeasurementKey}.
Context {Transform : Type}.
Variable inverse : Transform → Transform.
Variable uninitialized : Transform.
Variable dijkstra_predecessors :
  LabeledGraph MeasurementKey Transform → Vertex → Vertex → Vertex.

Abbreviation Graph := (LabeledGraph MeasurementKey Transform).
Abbreviation edge := (Edge MeasurementKey Transform).

Implicit Types (g : Graph) (e : edge) (k : MeasurementKey).

(** *** One pass of the removal *)

Lemma filter_all {A} (P : A → Prop) `{!∀ x, Decision (P x)} (l : list A) :
  Forall P l → filter P l = l.
Proof.
  induction 1 as [|x l Hx _ IH]; [done|].
  by rewrite filter_cons_True, IH.
Qed.

Lemma remove_edge_if_stopped k (es : list edge) :
  remove_edge_if (RemovePredicate k) true es = (es, true).
Proof.
  induction es as [|e es IH]; simpl; [done|]. by rewrite IH.
Qed.

Lemma remove_edge_if_clean k es es' :
  remove_edge_if (RemovePredicate k) false es = (es', false) →
  es' = es ∧ Forall (λ e, edge_key e ≠ k) es.
Proof.
  revert es'. induction es as [|e es IH]; intros es'; simpl.
  - intros [= <-]. by split.
  - destruct (decide (key (sensorData (info e)) = k)) as [Hk|Hk].
    + by rewrite remove_edge_if_stopped.
    + destruct (remove_edge_if (RemovePredicate k) false es) as [r s] eqn:E.
      intros [= <- ->]. destruct (IH _ eq_refl) as [-> HF].
      split; [done|]. by constructor.
Qed.

Lemma remove_edge_if_hit k es es' :
  remove_edge_if (RemovePredicate k) false es = (es', true) →
  filter (λ e, edge_key e ≠ k) es' = filter (λ e, edge_key e ≠ k) es.
Proof.
  revert es'. induction es as [|e es IH]; intros es'; simpl; [done|].
  destruct (decide (key (sensorData (info e)) = k)) as [Hk|Hk].
  - rewrite remove_edge_if_stopped. intros [= <-].
    rewrite filter_cons_False; [done|]. unfold edge_key. by intros [].
  - destruct (remove_edge_if (RemovePredicate k) false es) as [r s] eqn:E.
    intros [= <- ->]. rewrite !filter_cons_True by done.
    f_equal. by apply IH.
Qed.

Lemma removeEdgeByKey_loop_filter k es :
  removeEdgeByKey_loop k es = filter (λ e, edge_key e ≠ k) es.
Proof.
  funelim (removeEdgeByKey_loop k es).
  - match goal with IH : removeEdgeByKey_loop _ _ = filter _ _ |- _ => rewrite IH end.
    by apply remove_edge_if_hit.
  - destruct (remove_edge_if_clean _ _ _ E) as [-> HF].
    symmetry. by apply filter_all.
Qed.

(** C3. One call of removeEdgeByKey reaches the fixed point: what is left
    are the edges that do not carry the key, in their order, so no edge
    with the key remains, whatever its endpoints or direction and however
    many edges shared the key, and a second call changes nothing. *)
Theorem removeEdgeByKey_fixed_point k g :
  edges (removeEdgeByKey k g) = filter (λ e, edge_key e ≠ k) (edges g) ∧
  (∀ e, e ∈ edges (removeEdgeByKey k g) → key (sensorData (info e)) ≠ k) ∧
  removeEdgeByKey k (removeEdgeByKey k g) = removeEdgeByKey k g.
Proof.
  unfold removeEdgeByKey; simpl. rewrite !removeEdgeByKey_loop_filter.
  split; [done|]. split.
  - intros e He. by apply list_elem_of_filter in He as [? _].
  - f_equal. apply filter_all, Forall_forall.
    intros e He. by apply list_elem_of_filter in He as [? _].
Qed.

(** *** The state between calls *)

Lemma graph_ok_empty : graph_ok (empty_graph : Graph).
Proof.
  split; simpl.
  - intros l v. by rewrite lookup_empty.
  - intros e He. by apply elem_of_nil in He.
  - intros e He. by apply elem_of_nil in He.
Qed.

Lemma graph_ok_addEntity nm g : graph_ok g → graph_ok (addEntity nm g).
Proof.
  intros [Hl He Hw]. unfold addEntity, add_vertex, vertex_by_label.
  destruct (labels g !! nm) as [v|] eqn:Hnm; simpl.
  - rewrite Hnm. rewrite list_insert_id by by apply Hl.
    by destruct g.
  - rewrite lookup_insert_eq. split; simpl.
    + intros l v. rewrite lookup_insert. case_decide as Hd.
      * intros [= <-]. subst l.
        rewrite insert_app_r_alt, Nat.sub_diag by done. simpl.
        by rewrite lookup_app_r, Nat.sub_diag.
      * intros Hv. pose proof (Hl _ _ Hv) as Hx.
        pose proof (lookup_lt_Some _ _ _ Hx).
        rewrite insert_app_r_alt, Nat.sub_diag by done. simpl.
        by rewrite lookup_app_l.
    + intros e Hin. destruct (He e Hin). unfold num_vertices in *. simpl.
      rewrite length_insert, length_app. simpl. lia.
    + done.
Qed.

Lemma graph_ok_add_edge from to i g g' :
  graph_ok g → add_edge_by_label from to 1%Qc i g = Returned g' → graph_ok g'.
Proof.
  intros [Hl He Hw]. unfold add_edge_by_label, vertex_by_label.
  destruct (labels g !! from) as [u|] eqn:Hu; [|done].
  destruct (labels g !! to) as [v|] eqn:Hv; [|done].
  intros [= <-]. split; simpl; [done| |].
  - intros e [Hin| ->%list_elem_of_singleton]%elem_of_app; [by apply He|].
    simpl. unfold num_vertices.
    split; eapply lookup_lt_Some; by apply Hl.
  - intros e [Hin| ->%list_elem_of_singleton]%elem_of_app; [by apply Hw|done].
Qed.

Lemma graph_ok_edges_subseteq g es :
  graph_ok g → es ⊆ edges g →
  graph_ok {| vertices := vertices g; edges := es; labels := labels g |}.
Proof.
  intros [Hl He Hw] Hsub. split; simpl; [done| |].
  - intros e Hin. by apply He, Hsub.
  - intros e Hin. by apply Hw, Hsub.
Qed.

Lemma graph_ok_removeEdgeByKey k g : graph_ok g → graph_ok (removeEdgeByKey k g).
Proof.
  intros Hok. apply graph_ok_edges_subseteq; [done|].
  rewrite removeEdgeByKey_loop_filter. apply list_subseteq_filter.
Qed.

Lemma graph_ok_removeAllEdges from to g g' :
  graph_ok g → removeAllEdges from to g = Returned g' → graph_ok g'.
Proof.
  intros Hok. unfold removeAllEdges, remove_edge_by_label.
  destruct (vertex_by_label from g); [|done].
  destruct (vertex_by_label to g); [|by intros [= <-]].
  intros [= <-]. apply graph_ok_edges_subseteq; [done|].
  apply list_subseteq_filter.
Qed.

Lemma graph_ok_updateSensorData from to sd g g' :
  graph_ok g → updateSensorData inverse from to sd g = Returned g' → graph_ok g'.
Proof.
  intros Hok. unfold updateSensorData.
  destruct (add_edge_by_label from to 1%Qc _ (removeEdgeByKey (key sd) g))
    as [g1|] eqn:E1; simpl; [|done].
  intros E2. eapply graph_ok_add_edge; [|exact E2].
  eapply graph_ok_add_edge; [|exact E1].
  by apply graph_ok_removeEdgeByKey.
Qed.

Lemma reachable_graph_ok g : reachable_graph inverse g → graph_ok g.
Proof.
  induction 1.
  - apply graph_ok_empty.
  - by apply graph_ok_addEntity.
  - by eapply graph_ok_updateSensorData.
  - by eapply graph_ok_removeAllEdges.
  - by apply graph_ok_removeEdgeByKey.
Qed.

Lemma path_cost_hops (path : list edge) :
  Forall (λ e, edge_weight e = 1%Qc) path →
  path_cost path = Qc_of_Z (Z.of_nat (length path)).
Proof.
  induction 1 as [|e path He _ IH]; [by apply Qc_is_canon|].
  unfold path_cost in *. cbn [foldr length]. rewrite IH, He.
  apply Qc_is_canon. simpl.
  rewrite Nat2Z.inj_succ, <- Z.add_1_l.
  rewrite !Qred_correct. unfold Qeq. simpl. lia.
Qed.

(** *** What updateSensorData stores *)

Lemma updateSensorData_known from to sd g u v :
  labels g !! from = Some u → labels g !! to = Some v →
  updateSensorData inverse from to sd g =
  Returned
    {| vertices := vertices g;
       edges := filter (λ e, edge_key e ≠ key sd) (edges g) ++
                [ {| source := u; target := v; edge_weight := 1%Qc;
                     info := {| sensorData := sd |} |};
                  {| source := v; target := u; edge_weight := 1%Qc;
                     info := {| sensorData :=
                                  {| key := key sd;
                                     transform := inverse (transform sd);
                                     weight := weight sd |} |} |} ];
       labels := labels g |}.
Proof.
  intros Hu Hv.
  unfold updateSensorData, add_edge_by_label, vertex_by_label, removeEdgeByKey.
  simpl. rewrite Hu, Hv. simpl. rewrite Hu, Hv.
  rewrite removeEdgeByKey_loop_filter, <- app_assoc. done.
Qed.

Lemma updateSensorData_unknown from to sd g :
  labels g !! from = None ∨ labels g !! to = None →
  updateSensorData inverse from to sd g = Undefined NullVertex.
Proof.
  intros Hun.
  unfold updateSensorData, add_edge_by_label, vertex_by_label, removeEdgeByKey.
  simpl. destruct Hun as [-> | ->]; [done|].
  by destruct (labels g !! from).
Qed.

Lemma updateSensorData_frames from to sd g g' :
  updateSensorData inverse from to sd g = Returned g' →
  vertices g' = vertices g ∧ labels g' = labels g.
Proof.
  destruct (labels g !! from) as [u|] eqn:Hu;
    [destruct (labels g !! to) as [v|] eqn:Hv|].
  - rewrite (updateSensorData_known _ _ _ _ _ _ Hu Hv). by intros [= <-].
  - by rewrite updateSensorData_unknown by by right.
  - by rewrite updateSensorData_unknown by by left.
Qed.

(** When both frames are registered, updateSensorData returns, and the
    graph then holds the edges that do not carry the key followed by the
    forward edge (from, to, key, T) and the mirror edge (to, from, key,
    inverse of T), both of weight one; vertices and labels are untouched. *)
Lemma updateSensorData_stores_pair from to sd g u v :
  labels g !! from = Some u → labels g !! to = Some v →
  ∃ g' fwd back,
    updateSensorData inverse from to sd g = Returned g' ∧
    vertices g' = vertices g ∧ labels g' = labels g ∧
    edges g' = filter (λ e, edge_key e ≠ key sd) (edges g) ++ [fwd; back] ∧
    (source fwd = u ∧ target fwd = v ∧ edge_key fwd = key sd ∧
     transform (sensorData (info fwd)) = transform sd) ∧
    (source back = v ∧ target back = u ∧ edge_key back = key sd ∧
     transform (sensorData (info back)) = inverse (transform sd)) ∧
    edge_weight fwd = 1%Qc ∧ edge_weight back = 1%Qc.
Proof.
  intros Hu Hv. eexists _, _, _.
  split; [by apply updateSensorData_known|]. simpl. done.
Qed.

(** Whenever updateSensorData returns, both frames are registered and the
    pair of edges is in the graph. *)
Lemma updateSensorData_returned from to sd g g' :
  updateSensorData inverse from to sd g = Returned g' →
  ∃ u v, labels g !! from = Some u ∧ labels g !! to = Some v ∧
         {| source := u; target := v; edge_weight := 1%Qc;
            info := {| sensorData := sd |} |} ∈ edges g' ∧
         {| source := v; target := u; edge_weight := 1%Qc;
            info := {| sensorData :=
                         {| key := key sd;
                            transform := inverse (transform sd);
                            weight := weight sd |} |} |} ∈ edges g'.
Proof.
  destruct (labels g !! from) as [u|] eqn:Hu;
    [destruct (labels g !! to) as [v|] eqn:Hv|].
  - rewrite (updateSensorData_known _ _ _ _ _ _ Hu Hv). intros [= <-].
    exists u, v. split; [done|]. split; [done|]. simpl.
    split; apply elem_of_app; right.
    + apply list_elem_of_here.
    + apply list_elem_of_further, list_elem_of_here.
  - by rewrite updateSensorData_unknown by by right.
  - by rewrite updateSensorData_unknown by by left.
Qed.

(** C10. In every state the member functions can reach, each edge has
    weight one, so the cost of a path through stored edges is its number
    of hops; and the two edges updateSensorData appends have weight one
    whatever the weight of the reading is. *)
Theorem unit_edge_weights g :
  reachable_graph inverse g →
  (∀ e, e ∈ edges g → edge_weight e = 1%Qc) ∧
  (∀ path : list edge, path ⊆ edges g →
     path_cost path = Qc_of_Z (Z.of_nat (length path))) ∧
  (∀ from to sd g', updateSensorData inverse from to sd g = Returned g' →
     ∃ e1 e2, edges g' = edges (removeEdgeByKey (key sd) g) ++ [e1; e2] ∧
              edge_weight e1 = 1%Qc ∧ edge_weight e2 = 1%Qc).
Proof.
  intros Hrg. pose proof (reachable_graph_ok _ Hrg) as [_ _ Hw].
  split; [done|]. split.
  - intros path Hsub. apply path_cost_hops, Forall_forall.
    intros e He. by apply Hw, Hsub.
  - intros from to sd g'.
    destruct (labels g !! from) as [u|] eqn:Hu;
      [destruct (labels g !! to) as [v|] eqn:Hv|].
    + rewrite (updateSensorData_known _ _ _ _ _ _ Hu Hv). intros [= <-].
      eexists _, _. simpl. by rewrite removeEdgeByKey_loop_filter.
    + by rewrite updateSensorData_unknown by by right.
    + by rewrite updateSensorData_unknown by by left.
Qed.

(** *** Frames that were never registered *)

Lemma lookupPath_unknown fuel from to g :
  labels g !! from = None ∨ labels g !! to = None →
  ∃ f, lookupPath dijkstra_predecessors fuel from to g = Undefined f.
Proof.
  intros Hun. unfold lookupPath, vertex_by_label, dijkstra_shortest_paths.
  destruct (replicate (num_edges g) 0) as [|x p0]; [by eexists|].
  case_decide; [|by eexists].
  destruct (labels g !! from) as [u|]; [|by eexists].
  destruct Hun as [?| ->]; [done|].
  case_decide; simpl; by eexists.
Qed.

(** C4, as the code has it. No operation checks a frame name. With a
    name that was never registered, [vertex_by_label] yields the null
    vertex. updateSensorData hands it to the graph as a vertex,
    removeAllEdges with an unregistered [from] takes the out-edge list of
    the null vertex, and the path queries use it as an index: none of
    these returns, and none reports an error. removeAllEdges with a
    registered [from] and an unregistered [to] returns with the graph as
    it was, and reports nothing either. No call adds a vertex or a label
    for the name: whenever updateSensorData or removeAllEdges returns, and
    for every removeEdgeByKey, vertices and labels are the ones before the
    call. *)
Theorem unknown_frame_unguarded fuel from to sd g :
  labels g !! from = None ∨ labels g !! to = None →
  updateSensorData inverse from to sd g = Undefined NullVertex ∧
  removeAllEdges from to g
  = match labels g !! from with
    | None => Undefined NullVertex
    | Some _ => Returned g
    end ∧
  (∃ f, lookupPath dijkstra_predecessors fuel from to g = Undefined f) ∧
  (∃ f, lookupTransform uninitialized dijkstra_predecessors fuel from to g
        = Undefined f) ∧
  (∃ f, canTransform dijkstra_predecessors fuel from to g = Undefined f) ∧
  (∀ a b r g', updateSensorData inverse a b r g = Returned g' →
     vertices g' = vertices g ∧ labels g' = labels g) ∧
  (∀ a b g', removeAllEdges a b g = Returned g' →
     vertices g' = vertices g ∧ labels g' = labels g) ∧
  (∀ k, vertices (removeEdgeByKey k g) = vertices g ∧
        labels (removeEdgeByKey k g) = labels g).
Proof.
  intros Hun.
  split; [by apply updateSensorData_unknown|].
  split.
  { unfold removeAllEdges, remove_edge_by_label, vertex_by_label.
    destruct Hun as [-> | ->]; [done|]. by destruct (labels g !! from). }
  destruct (lookupPath_unknown fuel _ _ _ Hun) as [f Hf].
  split; [by exists f|].
  split; [exists f; unfold lookupTransform; by rewrite Hf|].
  split; [exists f; unfold canTransform; by rewrite Hf|].
  split; [intros a b r g'; apply updateSensorData_frames|].
  split; [|done].
  intros a b g'. unfold removeAllEdges, remove_edge_by_label.
  destruct (vertex_by_label a g); [|done].
  destruct (vertex_by_label b g); by intros [= <-].
Qed.

(** *** Chains of predecessors *)

Section Chains.
Variables (g : Graph) (pred : Vertex → Vertex) (s : Vertex).

Lemma pred_path_ends v vs :
  pred_path g pred s v vs → ∃ ws, vs = ws ++ [v] ∧ head vs = Some s.
Proof.
  induction 1 as [Hs|v vs Hne He Hp (ws & -> & Hh)].
  - by exists [].
  - eexists. split; [done|]. by destruct ws.
Qed.

Lemma pred_path_functional v vs vs' :
  pred_path g pred s v vs → pred_path g pred s v vs' → vs = vs'.
Proof.
  intros H. revert vs'. induction H as [Hs|v vs Hne He Hp IH]; intros vs' H'.
  - inversion H' as [|? ? Hne']; [done|]. by destruct Hne'.
  - inversion H' as [Hs Hv|? ws Hne' He' Hp']; subst.
    + by destruct Hne.
    + f_equal. by apply IH.
Qed.

Lemma pred_path_prefix v vs x :
  pred_path g pred s v vs → x ∈ vs →
  ∃ ws, pred_path g pred s x ws ∧ length ws ≤ length vs.
Proof.
  induction 1 as [Hs|v vs Hne He Hp IH].
  - intros ->%list_elem_of_singleton. exists [s]. split; [by constructor|done].
  - intros [Hin|Hx%list_elem_of_singleton]%elem_of_app.
    + destruct (IH Hin) as (ws & Hws & Hlen). exists ws. split; [done|].
      rewrite length_app. lia.
    + subst x. exists (vs ++ [v]). split; [by constructor|done].
Qed.

Lemma pred_path_NoDup v vs : pred_path g pred s v vs → NoDup vs.
Proof.
  induction 1 as [Hs|v vs Hne He Hp IH].
  - apply NoDup_singleton.
  - apply NoDup_app. split; [done|]. split; [|apply NoDup_singleton].
    intros x Hx Hxv%list_elem_of_singleton. subst x.
    destruct (pred_path_prefix _ _ _ Hp Hx) as (ws & Hws & Hlen).
    assert (ws = vs ++ [v]) as -> by (eapply pred_path_functional; [done|by constructor]).
    rewrite length_app in Hlen. simpl in Hlen. lia.
Qed.

Lemma pred_path_walk v vs : pred_path g pred s v vs → is_walk g vs.
Proof.
  induction 1 as [Hs|v vs Hne He Hp IH]; [done|].
  destruct (pred_path_ends _ _ Hp) as (ws & -> & _).
  clear Hp. induction ws as [|w [|w' ws] IHws]; simpl in *.
  - done.
  - destruct IH as [? _]. done.
  - destruct IH as [? IH]. split; [done|]. by apply IHws.
Qed.

Lemma pred_path_reachable v vs : pred_path g pred s v vs → reachable g s v.
Proof.
  induction 1 as [Hs|v vs Hne He Hp IH]; [constructor|].
  by econstructor.
Qed.

Lemma pred_path_bounded n v vs :
  (∀ x, x < n → pred x < n) → v < n →
  pred_path g pred s v vs → Forall (λ x, x < n) vs.
Proof.
  intros Hr Hv H. induction H as [Hs|v vs Hne He Hp IH].
  - by constructor.
  - apply Forall_app. split; [by apply IH, Hr|]. by constructor.
Qed.

Lemma pred_path_length n v vs :
  (∀ x, x < n → pred x < n) → v < n →
  pred_path g pred s v vs → length vs ≤ n.
Proof.
  intros Hr Hv H.
  pose proof (pred_path_bounded _ _ _ Hr Hv H) as Hb.
  cut (length vs ≤ length (seq 0 n)); [by rewrite length_seq|].
  apply submseteq_length, NoDup_submseteq.
  - by eapply pred_path_NoDup.
  - intros x Hx. apply elem_of_seq. rewrite Forall_forall in Hb.
    specialize (Hb x Hx). lia.
Qed.

End Chains.

(** *** The travel from the goal to the start *)

Lemma edge_between_has_edge g u v :
  has_edge g u v →
  ∃ e, edge_between u v g = Some e ∧ source e = u ∧ target e = v.
Proof.
  intros (e & Hin & Hs & Ht). unfold edge_between.
  destruct (filter _ (edges g)) as [|e' l] eqn:E.
  - exfalso. eapply (filter_nil_not_elem_of _ _ e); [exact E| |exact Hin]. done.
  - exists e'. split; [done|].
    assert (e' ∈ filter (λ e : edge, source e = u ∧ target e = v) (edges g)) as Hin'
      by (rewrite E; apply list_elem_of_here).
    by apply list_elem_of_filter in Hin' as [? _].
Qed.

Lemma travel_pred_path g pred s fuel p v vs :
  pred_path g pred s v vs →
  (∀ x, x ∈ vs → p !! x = Some (pred x)) →
  length vs ≤ S fuel →
  ∃ es, travel fuel p g v = Returned (reverse es) ∧
        (source <$> es) ++ [v] = vs ∧ s :: (target <$> es) = vs.
Proof.
  intros H. revert fuel. induction H as [Hs|v vs Hne He Hp IH]; intros fuel Hp' Hlen.
  - exists []. split; [|done].
    destruct fuel; simpl; rewrite (Hp' s) by apply list_elem_of_here;
      rewrite Hs; by rewrite decide_True.
  - destruct (pred_path_ends _ _ _ _ _ Hp) as (ws & Hws & _).
    rewrite length_app in Hlen. simpl in Hlen.
    destruct fuel as [|fuel]; [subst vs; rewrite length_app in Hlen; simpl in Hlen; lia|].
    destruct (IH fuel) as (es & Hes & Hsrc & Htgt).
    { intros x Hx. apply Hp', elem_of_app. by left. }
    { lia. }
    destruct (edge_between_has_edge _ _ _ He) as (e & Hbe & Hsrc' & Htgt').
    exists (es ++ [e]). simpl.
    rewrite (Hp' v) by (apply elem_of_app; right; apply list_elem_of_here).
    rewrite decide_False by done. rewrite Hes. simpl. rewrite Hbe.
    split; [by rewrite reverse_snoc|].
    rewrite !fmap_app. simpl. rewrite Hsrc', Htgt'.
    split; [by rewrite Hsrc|]. by rewrite app_comm_cons, Htgt.
Qed.

Lemma vertex_name_in_range g v :
  v < num_vertices g → vertex_name g v = Returned (name_of g v).
Proof.
  intros Hv. unfold vertex_name, name_of.
  destruct (vertices g !! v) eqn:E; [done|].
  apply lookup_ge_None in E. unfold num_vertices in Hv. lia.
Qed.

Lemma verticesInPath_names g first es :
  Forall (λ e, source e < num_vertices g ∧ target e < num_vertices g) es →
  verticesInPath g first es =
  Returned ((if first then name_of g <$> (source <$> take 1 es) else [])
            ++ (name_of g <$> (target <$> es))).
Proof.
  intros H. revert first. induction H as [|e es [Hs Ht] _ IH]; intros first.
  - by destruct first.
  - simpl. rewrite !vertex_name_in_range by done. simpl.
    rewrite IH. simpl. by destruct first.
Qed.

Lemma dijkstra_shortest_paths_sized g s m :
  s < num_vertices g → num_vertices g ≤ m →
  dijkstra_shortest_paths dijkstra_predecessors g (Some s) (replicate m 0) =
  Returned ((dijkstra_predecessors g s <$> seq 0 (num_vertices g))
            ++ drop (num_vertices g) (replicate m 0)).
Proof.
  intros Hs Hm. unfold dijkstra_shortest_paths.
  destruct m as [|m]; [lia|]. simpl replicate at 1.
  rewrite decide_True by (rewrite <- (length_replicate (S m) 0) in Hm; exact Hm).
  by rewrite decide_True.
Qed.

Lemma predecessor_cells (f : Vertex → Vertex) n rest x :
  x < n → ((f <$> seq 0 n) ++ rest) !! x = Some (f x).
Proof.
  intros Hx. rewrite lookup_app_l by by rewrite length_fmap, length_seq.
  by rewrite list_lookup_fmap, lookup_seq_lt.
Qed.

Lemma lookupPath_along fuel from to g s t vs :
  graph_ok g →
  labels g !! from = Some s → labels g !! to = Some t →
  num_vertices g ≤ num_edges g →
  dijkstra_contract g s (dijkstra_predecessors g s) →
  num_vertices g ≤ fuel →
  pred_path g (dijkstra_predecessors g s) s t vs →
  lookupPath dijkstra_predecessors fuel from to g =
  Returned (match vs with [_] => [] | _ => name_of g <$> vs end).
Proof.
  intros Hok Hs Ht Hm [Hroot Hrange Htree Hreach] Hfuel Hp.
  pose proof (lookup_lt_Some _ _ _ (ok_labels _ Hok _ _ Hs)) as Hsn.
  pose proof (lookup_lt_Some _ _ _ (ok_labels _ Hok _ _ Ht)) as Htn.
  pose proof (pred_path_bounded _ _ _ _ _ _ Hrange Htn Hp) as Hb.
  pose proof (pred_path_length _ _ _ _ _ _ Hrange Htn Hp) as Hlen.
  unfold lookupPath, vertex_by_label. rewrite Hs, Ht.
  rewrite dijkstra_shortest_paths_sized by done. simpl.
  destruct (travel_pred_path _ _ _ fuel
              ((dijkstra_predecessors g s <$> seq 0 (num_vertices g))
               ++ drop (num_vertices g) (replicate (num_edges g) 0)) _ _ Hp)
    as (es & -> & Hsrc & Htgt).
  { intros x Hx. apply predecessor_cells.
    rewrite Forall_forall in Hb. by apply Hb. }
  { unfold num_vertices in *. lia. }
  simpl. rewrite reverse_involutive. rewrite verticesInPath_names.
  - rewrite <- Htgt in Hsrc |- *.
    destruct es as [|e es]; simpl in *; [done|].
    injection Hsrc as -> _. done.
  - apply Forall_forall. intros e He. rewrite Forall_forall in Hb. split; apply Hb.
    + rewrite <- Hsrc. apply elem_of_app. left. by apply list_elem_of_fmap_2.
    + rewrite <- Htgt. apply list_elem_of_further. by apply list_elem_of_fmap_2.
Qed.

Lemma lookupPath_at_root fuel from to g s t :
  graph_ok g →
  labels g !! from = Some s → labels g !! to = Some t →
  num_vertices g ≤ num_edges g →
  dijkstra_predecessors g s t = t →
  lookupPath dijkstra_predecessors fuel from to g = Returned [].
Proof.
  intros Hok Hs Ht Hm Hp.
  pose proof (lookup_lt_Some _ _ _ (ok_labels _ Hok _ _ Hs)) as Hsn.
  pose proof (lookup_lt_Some _ _ _ (ok_labels _ Hok _ _ Ht)) as Htn.
  unfold lookupPath, vertex_by_label. rewrite Hs, Ht.
  rewrite dijkstra_shortest_paths_sized by done. simpl.
  assert (∀ p, p !! t = Some t → travel fuel p g t = Returned []) as Htr.
  { intros p Hpt. destruct fuel; simpl; rewrite Hpt; by rewrite decide_True. }
  rewrite Htr; [done|]. rewrite predecessor_cells by done. by rewrite Hp.
Qed.

Lemma name_of_label g l v : graph_ok g → labels g !! l = Some v → name_of g v = l.
Proof.
  intros Hok Hl. unfold name_of. by rewrite (ok_labels _ Hok _ _ Hl).
Qed.

(** C7, as the code has it. In a graph that has at least as many edges
    as vertices, and given that the library's search keeps its contract:
    for two registered frames, when they differ and the goal can be
    reached, lookupPath returns the names along a walk through stored
    edges, the first being [from] and the last [to]; when the frames are
    the same, or the goal cannot be reached, it returns the empty list.
    When a frame is not registered, the call has no defined result. *)
Theorem lookupPath_registered fuel from to g :
  graph_ok g →
  num_vertices g ≤ num_edges g →
  num_vertices g ≤ fuel →
  (∀ s, labels g !! from = Some s →
        dijkstra_contract g s (dijkstra_predecessors g s)) →
  match labels g !! from, labels g !! to with
  | Some s, Some t =>
      (s ≠ t → reachable g s t →
       ∃ vs, lookupPath dijkstra_predecessors fuel from to g
             = Returned (name_of g <$> vs) ∧
             head (name_of g <$> vs) = Some from ∧
             last (name_of g <$> vs) = Some to ∧
             head vs = Some s ∧ last vs = Some t ∧ is_walk g vs) ∧
      (s = t ∨ ¬ reachable g s t →
       lookupPath dijkstra_predecessors fuel from to g = Returned [])
  | _, _ => ∃ f, lookupPath dijkstra_predecessors fuel from to g = Undefined f
  end.
Proof.
  intros Hok Hm Hfuel Hcs.
  destruct (labels g !! from) as [s|] eqn:Hs;
    [destruct (labels g !! to) as [t|] eqn:Ht|];
    [|apply lookupPath_unknown; auto..].
  specialize (Hcs s eq_refl). rename Hcs into Hc.
  pose proof (lookup_lt_Some _ _ _ (ok_labels _ Hok _ _ Ht)) as Htn.
  split.
  - intros Hne Hre.
    destruct (dc_tree _ _ _ Hc t Htn (dc_reached _ _ _ Hc t Htn Hre (not_eq_sym Hne)))
      as [vs Hp].
    exists vs. rewrite (lookupPath_along _ _ _ _ _ _ _ Hok Hs Ht Hm Hc Hfuel Hp).
    destruct (pred_path_ends _ _ _ _ _ Hp) as (ws & -> & Hh).
    destruct ws as [|w ws]; [simpl in Hh; congruence|].
    split; [by destruct ws|].
    split; [|split; [|split; [done|split]]].
    + simpl in *. injection Hh as ->. f_equal. by eapply name_of_label.
    + rewrite fmap_snoc, last_snoc. f_equal. by eapply name_of_label.
    + by rewrite last_snoc.
    + by eapply pred_path_walk.
  - intros Hno. apply (lookupPath_at_root _ _ _ _ s t); try done.
    destruct Hno as [<- | Hno]; [by apply (dc_root _ _ _ Hc)|].
    destruct (decide (dijkstra_predecessors g s t = t)) as [|Hpt]; [done|].
    destruct (dc_tree _ _ _ Hc t Htn Hpt) as [vs Hp].
    destruct Hno. by eapply pred_path_reachable.
Qed.

Lemma edge_between_Some g u v e : edge_between u v g = Some e → has_edge g u v.
Proof.
  unfold edge_between. intros H.
  destruct (filter _ (edges g)) as [|e' l] eqn:E; [done|]. injection H as ->.
  assert (e ∈ filter (λ e : edge, source e = u ∧ target e = v) (edges g)) as Hin
    by (rewrite E; apply list_elem_of_here).
  apply list_elem_of_filter in Hin as [[? ?] ?]. by exists e.
Qed.

End GraphFacts.

(** ** The search that stands for the library's keeps the contract *)

Section SearchFacts.
Context {K T : Type}.
Import Dijkstra.

Implicit Types (cells : list cell) (g : LabeledGraph K T) (e : Edge K T)
  (es : list (Edge K T)).

Lemma better_Some best v c u d :
  better best v c = Some (u, d) →
  best = Some (u, d) ∨ (u = v ∧ c_dist c = Some d ∧ c_closed c = false).
Proof.
  unfold better. destruct (c_dist c) as [d'|]; [|by left].
  destruct (c_closed c); [by left|].
  destruct best as [[v' db]|].
  - case_decide; [|by left]. intros [= <- <-]. by right.
  - intros [= <- <-]. by right.
Qed.

Lemma better_None best v c :
  better best v c = None →
  best = None ∧ (c_dist c = None ∨ c_closed c = true).
Proof.
  unfold better. destruct (c_dist c) as [d'|]; [|by auto].
  destruct (c_closed c); [by auto|].
  destruct best as [[v' db]|]; [by case_decide|done].
Qed.

Lemma scan_Some v cells best u d :
  scan v cells best = Some (u, d) →
  best = Some (u, d) ∨
  ∃ c, v ≤ u ∧ cells !! (u - v) = Some c ∧ c_dist c = Some d ∧ c_closed c = false.
Proof.
  revert v best. induction cells as [|c cells IH]; intros v best; simpl; [by left|].
  intros [Hb|(c' & Hle & Hl & Hd & Hc)]%IH.
  - apply better_Some in Hb as [?|(-> & ? & ?)]; [by left|].
    right. exists c. rewrite Nat.sub_diag. done.
  - right. exists c'. split; [lia|]. split; [|done].
    replace (u - v) with (S (u - S v)) by lia. done.
Qed.

Lemma scan_None v cells best :
  scan v cells best = None →
  best = None ∧ ∀ i c, cells !! i = Some c → c_dist c = None ∨ c_closed c = true.
Proof.
  revert v best. induction cells as [|c cells IH]; intros v best; simpl.
  - intros ->. split; [done|]. intros i c. by rewrite lookup_nil.
  - intros [[Hb Hc]%better_None Hall]%IH. split; [done|].
    intros [|i] c'; simpl; [by intros [= <-]|]. apply Hall.
Qed.

Lemma pick_Some cells u d :
  pick cells = Some (u, d) → reached_at cells u ∧ ¬ closed_at cells u.
Proof.
  unfold pick. intros [?|(c & _ & Hl & Hd & Hc)]%scan_Some; [done|].
  rewrite Nat.sub_0_r in Hl. split.
  - by exists c, d.
  - intros (c' & Hl' & Hc'). congruence.
Qed.

Lemma pick_None cells v :
  pick cells = None → reached_at cells v → closed_at cells v.
Proof.
  unfold pick. intros [_ Hall]%scan_None (c & d & Hl & Hd).
  exists c. split; [done|]. destruct (Hall _ _ Hl); congruence.
Qed.


Lemma reached_at_insert cells t c v :
  t < length cells →
  reached_at (<[t := c]> cells) v ↔
  (v = t ∧ is_Some (c_dist c)) ∨ (v ≠ t ∧ reached_at cells v).
Proof.
  intros Ht. unfold reached_at. destruct (decide (v = t)) as [->|Hne].
  - rewrite list_lookup_insert_eq by done. split.
    + intros (c' & d & [= <-] & Hd). left. by rewrite Hd.
    + intros [[_ [d Hd]]|[? _]]; [|done]. by exists c, d.
  - rewrite list_lookup_insert_ne by done. split; [by right|].
    by intros [[? _]|[_ ?]].
Qed.

Lemma closed_at_insert cells t c v :
  t < length cells →
  closed_at (<[t := c]> cells) v ↔
  (v = t ∧ c_closed c = true) ∨ (v ≠ t ∧ closed_at cells v).
Proof.
  intros Ht. unfold closed_at. destruct (decide (v = t)) as [->|Hne].
  - rewrite list_lookup_insert_eq by done. split.
    + intros (c' & [= <-] & Hc). by left.
    + intros [[_ Hc]|[? _]]; [|done]. by exists c.
  - rewrite list_lookup_insert_ne by done. split; [by right|].
    by intros [[? _]|[_ ?]].
Qed.

Lemma pred_of_insert cells t c v :
  t < length cells →
  pred_of (<[t := c]> cells) v = if decide (v = t) then c_pred c else pred_of cells v.
Proof.
  intros Ht. unfold pred_of. case_decide as Hd.
  - subst v. by rewrite list_lookup_insert_eq.
  - by rewrite list_lookup_insert_ne.
Qed.

Lemma relaxed_same u es cells :
  (∀ e, e ∈ es → source e = u → target e < length cells →
        closed_at cells (target e) ∨ reached_at cells (target e)) →
  relaxed_from u es cells cells.
Proof. intros H. split; try done. intros v. by left. Qed.

Lemma relax_step u du cells e :
  relaxed_from u [e] cells (relax u du cells e).
Proof.
  unfold relax. case_decide as Hs.
  2: { apply relaxed_same. by intros e' ->%list_elem_of_singleton. }
  destruct (cells !! target e) as [c|] eqn:Hl.
  2: { apply relaxed_same. intros e' ->%list_elem_of_singleton _ Hlt.
       apply lookup_ge_None in Hl. lia. }
  pose proof (lookup_lt_Some _ _ _ Hl) as Hlt.
  destruct (c_closed c) eqn:Hc.
  { apply relaxed_same. intros e' ->%list_elem_of_singleton _ _. left. by exists c. }
  destruct (match c_dist c with Some d => bool_decide (du + edge_weight e < d)%Qc
                              | None => true end) eqn:Himp.
  2: { apply relaxed_same. intros e' ->%list_elem_of_singleton _ _. right.
       destruct (c_dist c) as [d|] eqn:Hd; [|done]. by exists c, d. }
  split.
  - by rewrite length_insert.
  - intros v. rewrite closed_at_insert by done. simpl.
    split; [intros [[_ ?]|[_ ?]]; done|].
    intros Hv. right. split; [|done]. intros ->.
    destruct Hv as (c' & Hl' & Hc'). congruence.
  - intros v Hv. apply reached_at_insert; [done|]. simpl.
    destruct (decide (v = target e)); [left|right]; done.
  - intros v. rewrite pred_of_insert, reached_at_insert by done. simpl.
    case_decide as Hv.
    + right. subst v. split; [done|]. split; [by left|]. split.
      * intros (c' & Hl' & Hc'). congruence.
      * exists e. split; [apply list_elem_of_here|done].
    + left. split; [done|]. by intros [[? _]|[_ ?]].
  - intros e' ->%list_elem_of_singleton _ _. right.
    apply reached_at_insert; [done|]. left. done.
Qed.

Lemma relaxed_trans u es1 es2 cells0 cells1 cells2 :
  relaxed_from u es1 cells0 cells1 → relaxed_from u es2 cells1 cells2 →
  relaxed_from u (es1 ++ es2) cells0 cells2.
Proof.
  intros [L1 C1 M1 P1 D1] [L2 C2 M2 P2 D2]. split.
  - congruence.
  - intros v. by rewrite C2.
  - intros v Hv. by apply M2, M1.
  - intros v. destruct (P2 v) as [[Hp2 Hr2]|(Hp2 & Hr2 & Hc2 & e & He & Hse & Hte)].
    + destruct (P1 v) as [[Hp1 Hr1]|(Hp1 & Hr1 & Hc1 & e & He & Hse & Hte)].
      * left. split; [congruence|auto].
      * right. split; [congruence|]. split; [by apply M2|]. split; [done|].
        exists e. split; [|done]. apply elem_of_app. by left.
    + right. split; [done|]. split; [done|]. split; [by rewrite <- C1|].
      exists e. split; [|done]. apply elem_of_app. by right.
  - intros e [He|He]%elem_of_app Hs Ht.
    + destruct (D1 e He Hs Ht); [by left|]. right. by apply M2.
    + rewrite <- L1 in Ht. destruct (D2 e He Hs Ht) as [Hc|?]; [|by right].
      left. by apply C1.
Qed.

Lemma relax_fold u du es cells :
  relaxed_from u es cells (foldl (relax u du) cells es).
Proof.
  revert cells. induction es as [|e es IH]; intros cells; simpl.
  - apply relaxed_same. intros e He. by apply elem_of_nil in He.
  - apply (relaxed_trans u [e] es _ (relax u du cells e)); [apply relax_step|apply IH].
Qed.


Lemma close_cells u cells :
  u < length cells →
  length (close u cells) = length cells ∧
  (∀ v, closed_at (close u cells) v ↔ closed_at cells v ∨ v = u) ∧
  (∀ v, reached_at (close u cells) v ↔ reached_at cells v) ∧
  (∀ v, pred_of (close u cells) v = pred_of cells v).
Proof.
  intros Hu. unfold close.
  destruct (lookup_lt_is_Some_2 cells u Hu) as [cu Hcu].
  split; [by rewrite length_alter|].
  split; [|split]; intros v; unfold closed_at, reached_at, pred_of;
    destruct (decide (v = u)) as [->|Hne];
    rewrite ?list_lookup_alter_eq, ?list_lookup_alter_ne, ?Hcu by done; simpl.
  - split; [by right|]. intros _. by eexists.
  - split; [by left|]. by intros [?|?].
  - split.
    + intros (c & d & [= <-] & Hd). by exists cu, d.
    + intros (c & d & [= <-] & Hd). by eexists _, d.
  - done.
  - done.
  - done.
Qed.

Lemma search_inv_init g s :
  s < length (vertices g) →
  search_inv g s (init_cells (length (vertices g)) s) [].
Proof.
  intros Hs. set (n := length (vertices g)).
  assert (∀ v, v < n → init_cells n s !! v =
            Some {| c_dist := if decide (v = s) then Some 0%Qc else None;
                    c_pred := v; c_closed := false |}) as Hin.
  { intros v Hv. unfold init_cells. by rewrite list_lookup_fmap, lookup_seq_lt. }
  assert (∀ v, n ≤ v → init_cells n s !! v = None) as Hout.
  { intros v Hv. apply lookup_ge_None. unfold init_cells.
    by rewrite length_fmap, length_seq. }
  assert (∀ v, pred_of (init_cells n s) v = v) as Hpred.
  { intros v. unfold pred_of. destruct (decide (v < n)).
    - by rewrite Hin.
    - by rewrite Hout by lia. }
  assert (∀ v, reached_at (init_cells n s) v → v = s) as Hre.
  { intros v (c & d & Hl & Hd). destruct (decide (v < n)).
    - rewrite Hin in Hl by done. injection Hl as <-. simpl in Hd. by case_decide.
    - rewrite Hout in Hl by lia. done. }
  split.
  - unfold init_cells. by rewrite length_fmap, length_seq.
  - done.
  - intros v. split.
    + intros (c & Hl & Hc). destruct (decide (v < n)).
      * rewrite Hin in Hl by done. by injection Hl as <-.
      * rewrite Hout in Hl by lia. done.
    + by intros ?%elem_of_nil.
  - constructor.
  - split; [apply Hpred|]. eexists _, 0%Qc. split; [by apply Hin|].
    simpl. by rewrite decide_True.
  - intros _. apply Hre.
  - done.
  - intros v Hv. rewrite Hpred. split; [|done]. intros ?%Hre. done.
  - by intros v ?%elem_of_nil.
  - intros v. by rewrite Hpred.
  - by intros u v ?%elem_of_nil.
Qed.

Lemma search_inv_step g s cells order u du :
  search_inv g s cells order →
  pick cells = Some (u, du) →
  search_inv g s (foldl (relax u du) (close u cells) (edges g)) (order ++ [u]).
Proof.
  intros [Hlen Hs Hord Hnd [Hrp Hrr] Hfresh Hstarted Hpred Hclosed Htree Hclos]
         [Hur Huo]%pick_Some.
  assert (u < length cells) as Hu.
  { destruct Hur as (c & d & Hl & _). by eapply lookup_lt_Some. }
  destruct (close_cells u cells Hu) as (Lc & Cc & Rc & Pc).
  destruct (relax_fold u du (edges g) (close u cells)) as [L C M P D].
  set (cells' := foldl (relax u du) (close u cells) (edges g)) in *.
  assert (∀ v, closed_at cells' v ↔ v ∈ order ++ [u]) as Hord'.
  { intros v. rewrite C, Cc, Hord, elem_of_app, list_elem_of_singleton. done. }
  assert (s ∈ order ++ [u]) as Hs'.
  { destruct order as [|o order'] eqn:Eo.
    - rewrite (Hfresh eq_refl u Hur). apply list_elem_of_here.
    - apply elem_of_app. left. by apply Hstarted. }
  assert (∀ v, reached_at cells v → reached_at cells' v) as Hmono.
  { intros v Hv. by apply M, Rc. }
  split.
  - congruence.
  - done.
  - done.
  - apply NoDup_app. split; [done|]. split; [|apply NoDup_singleton].
    intros v Hv ->%list_elem_of_singleton. by apply Huo, Hord.
  - split; [|by apply Hmono].
    destruct (P s) as [[Hp _]|(_ & _ & Hnc & _)]; [by rewrite Hp, Pc|].
    destruct Hnc. by apply C, Hord'.
  - intros Hnil. by destruct order.
  - done.
  - intros v Hv. destruct (P v) as [[Hp Hr]|(Hp & Hr & Hnc & _)].
    + rewrite Hp, Pc, <- Hpred by done. split; [|by apply Hmono].
      intros ?%Hr. by apply Rc.
    + rewrite Hp. split; [|done]. intros _ ->. apply Hnc, Cc. by right.
  - intros v [Hv| ->%list_elem_of_singleton]%elem_of_app; apply Hmono; auto.
  - intros v Hv. destruct (P v) as [[Hp Hr]|(Hp & Hr & Hnc & e & He & Hse & Hte)].
    + rewrite Hp, Pc in Hv |- *. destruct (Htree v Hv) as (Hedge & i & Hi & Hlt).
      split; [done|]. exists i. split; [by apply lookup_app_l_Some|].
      intros j Hj. apply lookup_app_Some in Hj as [Hj|[Hge Hj]]; [by apply Hlt|].
      apply lookup_lt_Some in Hi. lia.
    + rewrite Hp. split; [by exists e|]. exists (length order).
      split; [by rewrite lookup_app_r, Nat.sub_diag|].
      intros j Hj. destruct Hnc. apply C, Hord'.
      by eapply list_elem_of_lookup_2.
  - intros a v [Ha| ->%list_elem_of_singleton]%elem_of_app Hedge Hv.
    + by apply Hmono, (Hclos a).
    + destruct Hedge as (e & He & Hse & Hte). subst v.
      destruct (D e He Hse) as [Hc|?]; [congruence| |done].
      apply Hmono. destruct (proj1 (Cc _) Hc) as [Hc'|Hc'].
      * by apply Hclosed, Hord.
      * by rewrite Hc'.
Qed.


Lemma full_order (order : list Vertex) n :
  NoDup order → (∀ v, v ∈ order → v < n) → n ≤ length order →
  ∀ v, v < n → v ∈ order.
Proof.
  intros Hnd Hb Hlen v Hv.
  assert (order ⊆+ seq 0 n) as Hsub.
  { apply NoDup_submseteq; [done|]. intros x Hx. apply elem_of_seq.
    specialize (Hb x Hx). lia. }
  assert (order ≡ₚ seq 0 n) as Hperm.
  { apply submseteq_length_Permutation; [done|]. by rewrite length_seq. }
  rewrite Hperm. apply elem_of_seq. lia.
Qed.

Lemma search_inv_run g s fuel cells order :
  search_inv g s cells order →
  length (vertices g) ≤ fuel + length order →
  ∃ order', search_inv g s (search fuel (edges g) cells) order' ∧
            ∀ v, reached_at (search fuel (edges g) cells) v → v ∈ order'.
Proof.
  revert cells order. induction fuel as [|fuel IH]; intros cells order Hinv Hf; simpl.
  - exists order. split; [done|]. intros v (c & d & Hl & _).
    apply (full_order order (length (vertices g))).
    + by destruct Hinv.
    + intros x Hx. apply (si_order _ _ _ _ Hinv) in Hx as (cx & Hlx & _).
      rewrite <- (si_length _ _ _ _ Hinv). by eapply lookup_lt_Some.
    + lia.
    + rewrite <- (si_length _ _ _ _ Hinv). by eapply lookup_lt_Some.
  - destruct (pick cells) as [[u du]|] eqn:Hp.
    + apply (IH _ (order ++ [u])); [by apply search_inv_step|].
      rewrite length_app. simpl. lia.
    + exists order. split; [done|]. intros v Hv.
      by apply (si_order _ _ _ _ Hinv), pick_None.
Qed.

Lemma search_inv_chain g s cells order :
  search_inv g s cells order →
  ∀ i u, order !! i = Some u → ∃ vs, pred_path g (pred_of cells) s u vs.
Proof.
  intros Hinv i. induction (lt_wf i) as [i _ IH]. intros u Hi.
  destruct (decide (pred_of cells u = u)) as [Hu|Hu].
  - destruct (decide (u = s)) as [->|Hne]; [exists [s]; by constructor|].
    assert (reached_at cells u) as Hr
      by (eapply (si_closed _ _ _ _ Hinv), list_elem_of_lookup_2; exact Hi).
    by apply (si_pred _ _ _ _ Hinv u Hne) in Hr.
  - destruct (si_tree _ _ _ _ Hinv u Hu) as (Hedge & j & Hj & Hlt).
    destruct (IH j (Hlt _ Hi) _ Hj) as [vs Hvs].
    exists (vs ++ [u]). by constructor.
Qed.

(** The search of this file keeps the contract of the library's, on
    every graph whose edges join existing vertices. *)
Lemma search_keeps_contract g s :
  s < num_vertices g →
  (∀ e, e ∈ edges g → source e < num_vertices g ∧ target e < num_vertices g) →
  dijkstra_contract g s (Dijkstra.dijkstra_predecessors g s).
Proof.
  intros Hs Hrange. unfold num_vertices in *.
  destruct (search_inv_run g s (length (vertices g)) _ []
              (search_inv_init g s Hs) ltac:(lia)) as (order & Hinv & Hall).
  unfold Dijkstra.dijkstra_predecessors.
  set (cells := search _ _ _) in *.
  split.
  - apply (si_root _ _ _ _ Hinv).
  - intros v Hv. destruct (decide (pred_of cells v = v)) as [->|Hne]; [done|].
    destruct (si_tree _ _ _ _ Hinv v Hne) as (_ & i & Hi & _).
    apply list_elem_of_lookup_2, (si_order _ _ _ _ Hinv) in Hi as (c & Hl & _).
    unfold num_vertices. rewrite <- (si_length _ _ _ _ Hinv).
    by eapply lookup_lt_Some.
  - intros v Hv Hne.
    destruct (si_tree _ _ _ _ Hinv v Hne) as (Hedge & i & Hi & _).
    destruct (search_inv_chain _ _ _ _ Hinv _ _ Hi) as [vs Hvs].
    exists (vs ++ [v]). by constructor.
  - intros v Hv Hre Hne.
    apply (si_pred _ _ _ _ Hinv v Hne).
    clear Hne Hv. induction Hre as [|u v Hre IH Hedge].
    + apply (si_root _ _ _ _ Hinv).
    + apply (si_closure _ _ _ _ Hinv u v); [by apply Hall| done |].
      destruct Hedge as (e & He & _ & <-). by apply Hrange.
Qed.

End SearchFacts.

(** ** WeightedMean *)

Section WeightedMeanFacts.
Import WeightedMean.

Lemma addVec3s_accumulates samples st :
  m_vectorWeightedSum (addVec3s samples st) =
    foldl (λ acc vw, v3_add acc (v3_times vw.1 vw.2)) (m_vectorWeightedSum st) samples ∧
  m_vectorWeights (addVec3s samples st) =
    foldl (λ acc vw, (acc + vw.2)%Qc) (m_vectorWeights st) samples.
Proof.
  revert st. induction samples as [|[v w] samples IH]; intros st; [done|].
  exact (IH (addVec3 v w st)).
Qed.

Lemma Qc_one_not_zero : (0 + 1)%Qc ≠ 0%Qc.
Proof. by intros [=]. Qed.

Lemma single_sample v quats :
  weightedMeanVec3
    (addVec3 v 1%Qc
       {| m_vectorWeightedSum := v3_zero; m_vectorWeights := 0%Qc; m_quats := quats |}) = v.
Proof.
  unfold weightedMeanVec3, addVec3. cbn [m_vectorWeights m_vectorWeightedSum].
  destruct (decide ((0 + 1)%Qc = 0%Qc)) as [H|_]; [by destruct Qc_one_not_zero|].
  destruct v as [x y z]. unfold v3_div, v3_add, v3_times, v3_zero.
  cbn [v3_x v3_y v3_z].
  f_equal; field; discriminate.
Qed.

(** C8. weightedMeanVec3 returns the weighted sum of the vectors pushed
    since the last reset divided by the sum of their weights, and the zero
    vector when that sum of weights is zero; after a single
    addVec3(v, 1.0), on a reset or a new accumulator, it returns v. *)
Theorem weightedMeanVec3_mean :
  (∀ samples st,
     weightedMeanVec3 (addVec3s samples (reset st)) =
     if decide (total_weight samples = 0%Qc) then v3_zero
     else v3_div (weighted_sum samples) (total_weight samples)) ∧
  (∀ v st, weightedMeanVec3 (addVec3 v 1%Qc (reset st)) = v) ∧
  (∀ v, weightedMeanVec3 (addVec3 v 1%Qc new) = v) ∧
  (∀ sum quats,
     weightedMeanVec3
       {| m_vectorWeightedSum := sum; m_vectorWeights := 0%Qc; m_quats := quats |}
     = v3_zero).
Proof.
  split; [|split; [|split]].
  - intros samples st. unfold weightedMeanVec3.
    destruct (addVec3s_accumulates samples (reset st)) as [-> ->]. done.
  - intros v st. by apply single_sample.
  - intros v. by apply single_sample.
  - intros sum quats. unfold weightedMeanVec3. cbn [m_vectorWeights].
    by destruct (decide (0%Qc = 0%Qc)).
Qed.

Lemma largest_index_zero : largest_index v4_zero = 0.
Proof. by vm_compute. Qed.

(** C5, as the code has it. With no rotation sample, weightedMeanQuat
    returns as for any other input: the solver is given the zero matrix,
    and the result is the eigenvector column of the first eigenvalue of
    largest magnitude, which is column 0 when the solver reports four zero
    eigenvalues. *)
Theorem weightedMeanQuat_no_samples (solver : Matrix4d → eigen) (st : state) :
  m_quats st = [] →
  weightedMeanQuat solver st =
    (let col := m4_col (eigenvectors (solver m4_zero))
                  (largest_index (eigenvalues (solver m4_zero))) in
     {| q_x := c0 col; q_y := c1 col; q_z := c2 col; q_w := c3 col |}) ∧
  (eigenvalues (solver m4_zero) = v4_zero →
   weightedMeanQuat solver st =
     (let col := m4_col (eigenvectors (solver m4_zero)) 0 in
      {| q_x := c0 col; q_y := c1 col; q_z := c2 col; q_w := c3 col |})).
Proof.
  intros Hq. unfold weightedMeanQuat. rewrite Hq.
  change (gram []) with m4_zero. split; [done|].
  intros ->. by rewrite largest_index_zero.
Qed.

End WeightedMeanFacts.

(** ** ExplonentialMovingAverageFilter *)

Section MovingAverageFacts.
Import ExplonentialMovingAverageFilter.

Lemma checkReinit_takes_first now st :
  (m_timeout st ≠ 0%Z ∧ (m_timeout st ≤ now - m_timeOfLastValue st)%Z) →
  checkReinit now st = reset st.
Proof.
  intros [H0 Hle]. unfold checkReinit.
  rewrite decide_False by done. by rewrite decide_True.
Qed.

Lemma checkReinit_flags now st :
  (m_scalarInitialized (checkReinit now st) = false ∨
   m_scalarInitialized (checkReinit now st) = m_scalarInitialized st) ∧
  (m_vecInitialized (checkReinit now st) = false ∨
   m_vecInitialized (checkReinit now st) = m_vecInitialized st) ∧
  (m_quatInitialized (checkReinit now st) = false ∨
   m_quatInitialized (checkReinit now st) = m_quatInitialized st).
Proof.
  unfold checkReinit. repeat case_decide; simpl; auto.
Qed.

(** C6. A channel that is not initialised, or whose nonzero timeout has
    run out when the sample arrives, takes the sample as its estimate
    unchanged, without the smoothing factor; the channel is initialised
    afterwards. This holds for the scalar, the vector and the rotation
    channel. *)
Theorem first_sample_exact (slerp : Quaternion → Quaternion → Qc → Quaternion)
    (x : Qc) (v : Vector3) (q : Quaternion) (now now' : Z) (st : state) :
  (takes_first (m_scalarInitialized st) now st →
   scalar (addScalar x now now' st) = x ∧
   m_scalarInitialized (addScalar x now now' st) = true) ∧
  (takes_first (m_vecInitialized st) now st →
   vec3 (addVec3 v now now' st) = v ∧
   m_vecInitialized (addVec3 v now now' st) = true) ∧
  (takes_first (m_quatInitialized st) now st →
   quat (addQuat slerp q now now' st) = q ∧
   m_quatInitialized (addQuat slerp q now now' st) = true).
Proof.
  destruct (checkReinit_flags now st) as (Hs & Hv & Hq).
  split; [|split]; intros [Hf|Hstale].
  - unfold addScalar. destruct Hs as [-> | ->]; [done|]. by rewrite Hf.
  - unfold addScalar. by rewrite checkReinit_takes_first.
  - unfold addVec3. destruct Hv as [-> | ->]; [done|]. by rewrite Hf.
  - unfold addVec3. by rewrite checkReinit_takes_first.
  - unfold addQuat. destruct Hq as [-> | ->]; [done|]. by rewrite Hf.
  - unfold addQuat. by rewrite checkReinit_takes_first.
Qed.

(** C9, as the code has it. The accessors return the stored estimates
    whatever the flags say. On a new filter these are zero, the zero
    vector and the identity rotation. reset only lowers the flags: after
    it the accessors return what they returned before it. *)
Theorem accessors_read_estimates :
  (∀ alpha timeout,
     scalar (new alpha timeout) = 0%Qc ∧
     vec3 (new alpha timeout) = v3_zero ∧
     quat (new alpha timeout) = q_identity) ∧
  (∀ st,
     scalar (reset st) = scalar st ∧
     vec3 (reset st) = vec3 st ∧
     quat (reset st) = quat st).
Proof. done. Qed.

End MovingAverageFacts.

(** ** The model on concrete inputs *)

Section Evaluation.
Import Reference.
Import TransformGraph.

Example frames_ABC_built :
  frames_ABC =
  {| vertices := vertices scenario; edges := []; labels := labels scenario |}.
Proof. vm_compute. reflexivity. Qed.

Example after_s1_built :
  updateSensorData inverse "A" "B" s1 frames_ABC = Returned after_s1.
Proof. vm_compute. reflexivity. Qed.

Example scenario_built :
  updateSensorData inverse "B" "C" s2 after_s1 = Returned scenario.
Proof. vm_compute. reflexivity. Qed.

Example pair_AB_built :
  updateSensorData inverse "A" "B" s1 frames_AB = Returned pair_AB.
Proof. vm_compute. reflexivity. Qed.

(** The scenario of the spec: the path from A to C, and its loss once the
    edges of "s2" are removed ("s1" leaves two edges for three vertices,
    fewer cells than the search writes). *)
Example scenario_path :
  lookupPath dijkstra_predecessors 3 "A" "C" scenario = Returned ["A"; "B"; "C"] ∧
  canTransform dijkstra_predecessors 3 "A" "C" scenario = Returned true ∧
  removeEdgeByKey "s2" scenario = after_s1 ∧
  lookupPath dijkstra_predecessors 3 "A" "C" after_s1 = Undefined OutOfRange.
Proof. vm_compute. done. Qed.

Lemma scenario_reachable : reachable_graph inverse scenario.
Proof.
  apply (rg_updateSensorData _ "B" "C" s2 after_s1); [|apply scenario_built].
  apply (rg_updateSensorData _ "A" "B" s1 frames_ABC); [|apply after_s1_built].
  repeat apply rg_addEntity. apply rg_new.
Qed.

Lemma scenario_ok : graph_ok scenario.
Proof. apply (reachable_graph_ok inverse), scenario_reachable. Qed.

Lemma scenario_reaches_C : reachable scenario 0 2.
Proof.
  apply (reachable_step _ _ 1 2).
  - apply (reachable_step _ _ 0 1); [apply reachable_refl|].
    by apply (edge_between_Some _ _ _ (mk_edge 0 1 s1)).
  - by apply (edge_between_Some _ _ _ (mk_edge 1 2 s2)).
Qed.

(** C1. On the scenario of the spec the path from A to C is found, and
    lookupTransform then reaches its closing brace without a [return]: no
    product of edge transforms is computed. So it is whenever lookupPath
    finds a path; on any input the call either has no defined result or
    returns the transform that was never initialised. *)
Theorem lookupTransform_reaches_end :
  lookupPath dijkstra_predecessors 3 "A" "C" scenario = Returned ["A"; "B"; "C"] ∧
  lookupTransform stale_memory dijkstra_predecessors 3 "A" "C" scenario
    = Undefined NoReturn ∧
  (∀ (garbage : Transform) dij fuel from to (g : Graph) n ns,
     lookupPath dij fuel from to g = Returned (n :: ns) →
     lookupTransform garbage dij fuel from to g = Undefined NoReturn) ∧
  (∀ (garbage : Transform) dij fuel from to (g : Graph),
     lookupTransform garbage dij fuel from to g = Returned garbage ∨
     ∃ f, lookupTransform garbage dij fuel from to g = Undefined f).
Proof.
  split; [by vm_compute|]. split; [by vm_compute|]. split.
  - intros garbage dij fuel from to g n ns H. unfold lookupTransform. by rewrite H.
  - intros garbage dij fuel from to g. unfold lookupTransform.
    destruct (lookupPath dij fuel from to g) as [[|n ns]|f]; simpl; eauto.
Qed.

(** C2. After updateSensorData(A, B, s1) on the frames A and B the graph
    holds the forward edge with the transform of s1 and the mirror edge
    with its inverse; but lookupTransform, asked for the transform from A
    to B or from B to A over that pair, reaches its closing brace without
    a [return], so there is nothing to compose. *)
Theorem mirror_pair_not_resolved :
  updateSensorData inverse "A" "B" s1 frames_AB = Returned pair_AB ∧
  edges pair_AB = [ mk_edge 0 1 s1; mk_edge 1 0 (mirror s1) ] ∧
  lookupPath dijkstra_predecessors 2 "A" "B" pair_AB = Returned ["A"; "B"] ∧
  lookupPath dijkstra_predecessors 2 "B" "A" pair_AB = Returned ["B"; "A"] ∧
  lookupTransform stale_memory dijkstra_predecessors 2 "A" "B" pair_AB
    = Undefined NoReturn ∧
  lookupTransform stale_memory dijkstra_predecessors 2 "B" "A" pair_AB
    = Undefined NoReturn.
Proof. vm_compute. done. Qed.

(** C4 fails as stated: the call with the unknown frame "Z" does not come
    back with an error and the graph as it was; the edges of the key were
    already removed when the name is looked up. removeAllEdges from the
    unknown frame does not come back either, and towards it comes back
    as after a removal that found nothing. *)
Lemma unknown_frame_counterexample :
  updateSensorData inverse "A" "Z" s1 scenario = Undefined NullVertex ∧
  numberOfEdges scenario = 4 ∧
  numberOfEdges (removeEdgeByKey (key s1) scenario) = 2 ∧
  removeAllEdges "Z" "A" scenario = Undefined NullVertex ∧
  removeAllEdges "A" "Z" scenario = Returned scenario ∧
  lookupPath dijkstra_predecessors 3 "Z" "A" scenario = Undefined NullVertex.
Proof. vm_compute. done. Qed.

Lemma unknown_frame_unguarded_witness :
  (labels scenario !! "A" = None ∨ labels scenario !! "Z" = None) ∧
  updateSensorData inverse "A" "Z" s1 scenario = Undefined NullVertex ∧
  removeAllEdges "A" "Z" scenario = Returned scenario ∧
  ∃ f, lookupPath dijkstra_predecessors 3 "A" "Z" scenario = Undefined f.
Proof.
  assert (labels scenario !! "A" = None ∨ labels scenario !! "Z" = None) as H
    by (right; vm_compute; reflexivity).
  split; [exact H|].
  destruct (unknown_frame_unguarded inverse stale_memory dijkstra_predecessors
              3 "A" "Z" s1 scenario H) as (H1 & H2 & H3 & _).
  split; [exact H1|]. split; [exact H2|exact H3].
Defined.

(** C7 fails as stated: with the unknown frame "Z" no list is returned,
    in either position; and from a frame to itself the list is empty. *)
Lemma lookupPath_counterexample :
  lookupPath dijkstra_predecessors 3 "A" "Z" scenario = Undefined NullVertex ∧
  lookupPath dijkstra_predecessors 3 "Z" "A" scenario = Undefined NullVertex ∧
  lookupPath dijkstra_predecessors 3 "A" "A" scenario = Returned [].
Proof. vm_compute. done. Qed.

Lemma lookupPath_registered_witness :
  graph_ok scenario ∧
  (∃ names, lookupPath dijkstra_predecessors 3 "A" "C" scenario = Returned names ∧
            head names = Some "A" ∧ last names = Some "C") ∧
  lookupPath dijkstra_predecessors 3 "A" "A" scenario = Returned [] ∧
  (∃ f, lookupPath dijkstra_predecessors 3 "A" "Z" scenario = Undefined f).
Proof.
  assert (num_vertices scenario ≤ num_edges scenario) as Hm by (vm_compute; lia).
  assert (num_vertices scenario ≤ 3) as Hf by (vm_compute; lia).
  assert (∀ s, labels scenario !! "A" = Some s →
               dijkstra_contract scenario s (dijkstra_predecessors scenario s)) as Hc.
  { intros s Hs. apply search_keeps_contract; [|apply scenario_ok].
    eapply lookup_lt_Some, (ok_labels _ scenario_ok). exact Hs. }
  split; [exact scenario_ok|]. split; [|split].
  - pose proof (lookupPath_registered dijkstra_predecessors 3 "A" "C" scenario
                  scenario_ok Hm Hf Hc) as H.
    change (labels scenario !! "A") with (Some 0) in H.
    change (labels scenario !! "C") with (Some 2) in H.
    destruct H as [Hpath _].
    assert (0 ≠ 2) as Hne by discriminate.
    destruct (Hpath Hne scenario_reaches_C) as (vs & H1 & H2 & H3 & _).
    exists (name_of scenario <$> vs). split; [exact H1|]. split; [exact H2|exact H3].
  - pose proof (lookupPath_registered dijkstra_predecessors 3 "A" "A" scenario
                  scenario_ok Hm Hf Hc) as H.
    change (labels scenario !! "A") with (Some 0) in H.
    destruct H as [_ Hnone]. apply Hnone. left. reflexivity.
  - pose proof (lookupPath_registered dijkstra_predecessors 3 "A" "Z" scenario
                  scenario_ok Hm Hf Hc) as H.
    change (labels scenario !! "A") with (Some 0) in H.
    change (labels scenario !! "Z") with (@None Vertex) in H.
    exact H.
Defined.

Lemma unit_edge_weights_witness :
  reachable_graph inverse scenario ∧
  (∀ e : edge, e ∈ edges scenario → edge_weight e = 1%Qc) ∧
  path_cost [mk_edge 0 1 s1; mk_edge 1 2 s2] = Qc_of_Z 2.
Proof.
  split; [exact scenario_reachable|].
  destruct (unit_edge_weights inverse scenario scenario_reachable) as (Hw & Hc & _).
  split; [exact Hw|].
  apply (Hc [mk_edge 0 1 s1; mk_edge 1 2 s2]).
  intros e He. apply list_elem_of_In in He. apply list_elem_of_In.
  simpl in *. intuition.
Defined.

End Evaluation.

Section FilterEvaluation.
Import Reference.

(** C5 fails as stated: with no sample the call returns a quaternion. *)
Lemma weightedMeanQuat_counterexample :
  WeightedMean.weightedMeanQuat diagonal_solver
    (WeightedMean.reset (WeightedMean.addQuat q_identity 1%Qc WeightedMean.new))
  = {| q_x := 1%Qc; q_y := 0%Qc; q_z := 0%Qc; q_w := 0%Qc |}.
Proof. reflexivity. Qed.

Lemma weightedMeanQuat_no_samples_witness :
  WeightedMean.m_quats WeightedMean.new = [] ∧
  WeightedMean.weightedMeanQuat diagonal_solver WeightedMean.new
  = {| q_x := 1%Qc; q_y := 0%Qc; q_z := 0%Qc; q_w := 0%Qc |}.
Proof.
  split; [reflexivity|].
  exact (proj2 (weightedMeanQuat_no_samples diagonal_solver WeightedMean.new eq_refl)
           eq_refl).
Defined.

(** The mean of the spec's example: the three unit vectors, weight one
    each. *)
Example mean_of_unit_vectors :
  WeightedMean.weightedMeanVec3
    (WeightedMean.addVec3s
       [ ({| v3_x := 1%Qc; v3_y := 0%Qc; v3_z := 0%Qc |}, 1%Qc);
         ({| v3_x := 0%Qc; v3_y := 1%Qc; v3_z := 0%Qc |}, 1%Qc);
         ({| v3_x := 0%Qc; v3_y := 0%Qc; v3_z := 1%Qc |}, 1%Qc) ]
       WeightedMean.new)
  = {| v3_x := (1 / Qc_of_Z 3)%Qc; v3_y := (1 / Qc_of_Z 3)%Qc;
       v3_z := (1 / Qc_of_Z 3)%Qc |}.
Proof. vm_compute. f_equal; by apply Qc_is_canon. Qed.

(** The smoothing of the spec's example: 10, then 20 with factor one half
    and no timeout. *)
Example smoothing_example :
  ExplonentialMovingAverageFilter.scalar
    (ExplonentialMovingAverageFilter.addScalar (Qc_of_Z 20) 1 1
       (ExplonentialMovingAverageFilter.addScalar (Qc_of_Z 10) 0 0
          (ExplonentialMovingAverageFilter.new (1 / 2)%Qc 0)))
  = Qc_of_Z 15.
Proof. apply Qc_is_canon. reflexivity. Qed.

Lemma first_sample_exact_witness :
  ExplonentialMovingAverageFilter.takes_first
    (ExplonentialMovingAverageFilter.m_scalarInitialized warm_filter) 7 warm_filter ∧
  ExplonentialMovingAverageFilter.scalar
    (ExplonentialMovingAverageFilter.addScalar (Qc_of_Z 20) 7 8 warm_filter)
  = Qc_of_Z 20 ∧
  ExplonentialMovingAverageFilter.vec3
    (ExplonentialMovingAverageFilter.addVec3 v3_zero 1 1 warm_filter) = v3_zero.
Proof.
  assert (ExplonentialMovingAverageFilter.takes_first
            (ExplonentialMovingAverageFilter.m_scalarInitialized warm_filter)
            7 warm_filter) as Hs
    by (right; split; [discriminate|vm_compute; discriminate]).
  assert (ExplonentialMovingAverageFilter.takes_first
            (ExplonentialMovingAverageFilter.m_vecInitialized warm_filter)
            1 warm_filter) as Hv
    by (left; reflexivity).
  split; [exact Hs|]. split.
  - exact (proj1 (proj1 (first_sample_exact blend (Qc_of_Z 20) v3_zero q_identity
                           7 8 warm_filter) Hs)).
  - exact (proj1 (proj1 (proj2 (first_sample_exact blend 0%Qc v3_zero q_identity
                                  1 1 warm_filter)) Hv)).
Defined.

(** C9 fails as stated: after reset the scalar accessor still returns the
    last estimate, 10, not zero. *)
Lemma accessors_counterexample :
  ExplonentialMovingAverageFilter.scalar
    (ExplonentialMovingAverageFilter.reset warm_filter) = Qc_of_Z 10 ∧
  Qc_of_Z 10 ≠ 0%Qc.
Proof. split; [reflexivity|discriminate]. Qed.

End FilterEvaluation.

(** * Further properties of the transform graph *)

Section GraphCoverage.
Context {MeasurementKey : Type} `{!EqDecision MeasurementKey}.
Context {Transform : Type}.
Variable inverse : Transform → Transform.
Variable uninitialized : Transform.
Variable dijkstra_predecessors :
  LabeledGraph MeasurementKey Transform → Vertex → Vertex → Vertex.

Implicit Types (g : LabeledGraph MeasurementKey Transform)
  (e : Edge MeasurementKey Transform) (k : MeasurementKey).

Lemma addEntity_known nm g v :
  graph_ok g → labels g !! nm = Some v → addEntity nm g = g.
Proof.
  intros Hok Hv. unfold addEntity, add_vertex, vertex_by_label. rewrite Hv, Hv.
  rewrite list_insert_id by by apply (ok_labels _ Hok). by destruct g.
Qed.

Lemma addEntity_new nm g :
  labels g !! nm = None →
  addEntity nm g =
  {| vertices := vertices g ++ [ {| name := nm |} ];
     edges := edges g;
     labels := <[ nm := length (vertices g) ]> (labels g) |}.
Proof.
  intros Hn. unfold addEntity, add_vertex, vertex_by_label. rewrite Hn. simpl.
  rewrite lookup_insert_eq. f_equal.
  rewrite insert_app_r_alt, Nat.sub_diag by done. done.
Qed.

(** X1. addEntity registers the frame: afterwards the name resolves to a
    vertex that carries it, the edges and the frames registered before are
    as they were; a name that is already registered changes nothing, a new
    one gets the next vertex; and adding the same name twice is adding it
    once. *)
Theorem addEntity_registers nm g :
  graph_ok g →
  ∃ v, vertex_by_label nm (addEntity nm g) = Some v ∧
       name_of (addEntity nm g) v = nm ∧
       edges (addEntity nm g) = edges g ∧
       (∀ l w, labels g !! l = Some w →
               labels (addEntity nm g) !! l = Some w ∧
               name_of (addEntity nm g) w = l) ∧
       match labels g !! nm with
       | Some _ => addEntity nm g = g
       | None => v = num_vertices g ∧
                 num_vertices (addEntity nm g) = S (num_vertices g)
       end ∧
       addEntity nm (addEntity nm g) = addEntity nm g.
Proof.
  intros Hok. pose proof (graph_ok_addEntity nm g Hok) as Hok'.
  destruct (labels g !! nm) as [v|] eqn:Hnm.
  - rewrite (addEntity_known nm g v Hok Hnm). exists v.
    split; [done|]. split; [by eapply name_of_label|]. split; [done|].
    split; [|split; [done|by eapply addEntity_known]].
    intros l w Hl. split; [done|]. by eapply name_of_label.
  - exists (length (vertices g)).
    assert (labels (addEntity nm g) !! nm = Some (length (vertices g))) as Hv.
    { rewrite addEntity_new by done. simpl. by rewrite lookup_insert_eq. }
    split; [done|]. split; [by eapply name_of_label|].
    split; [by rewrite addEntity_new|]. split; [|split; [split; [done|]|]].
    + intros l w Hl.
      assert (labels (addEntity nm g) !! l = Some w) as Hl'.
      { rewrite addEntity_new by done. simpl.
        rewrite lookup_insert_ne; [done|]. intros ->. congruence. }
      split; [done|]. by eapply name_of_label.
    + rewrite addEntity_new by done. unfold num_vertices. simpl.
      rewrite length_app. simpl. lia.
    + by eapply addEntity_known.
Qed.

(** X2. No call removes a frame or moves it: a label that resolves to a
    vertex before a call resolves to the same vertex after it, and the
    number of vertices does not go down. *)
Theorem frames_persist g g' l v :
  call inverse g g' →
  labels g !! l = Some v →
  labels g' !! l = Some v ∧ num_vertices g ≤ num_vertices g'.
Proof.
  intros Hcall Hl. destruct Hcall as [nm g|from to sd g g' H|from to g g' H|k g].
  - unfold addEntity, add_vertex, vertex_by_label, num_vertices.
    destruct (labels g !! nm) as [w|] eqn:Hnm; simpl.
    + rewrite Hnm. simpl. by rewrite length_insert.
    + rewrite lookup_insert_eq. simpl. rewrite length_insert, length_app.
      split; [|lia]. rewrite lookup_insert_ne; [done|]. intros ->. congruence.
  - destruct (updateSensorData_frames _ _ _ _ _ _ H) as [Hv Hlab].
    unfold num_vertices. by rewrite Hv, Hlab.
  - unfold removeAllEdges, remove_edge_by_label in H.
    destruct (vertex_by_label from g); [|done].
    destruct (vertex_by_label to g); by injection H as <-.
  - done.
Qed.

Lemma frames_ok_addEntity nm g :
  graph_ok g → frames_ok g → frames_ok (addEntity nm g).
Proof.
  intros Hok Hf. destruct (labels g !! nm) as [v|] eqn:Hnm.
  - by rewrite (addEntity_known nm g v Hok Hnm).
  - rewrite addEntity_new by done. intros l v. simpl. split.
    + intros Hl. apply lookup_insert_Some in Hl as [[<- <-]|[Hne Hl]].
      * by rewrite lookup_app_r, Nat.sub_diag.
      * apply Hf in Hl. by apply lookup_app_l_Some.
    + intros Hv. apply lookup_app_Some in Hv as [Hv|[Hge Hv]].
      * apply Hf in Hv. rewrite lookup_insert_ne; [done|]. intros ->. congruence.
      * apply list_lookup_singleton_Some in Hv as [Hz [= <-]].
        replace v with (length (vertices g)) by lia. by rewrite lookup_insert_eq.
Qed.

Lemma frames_ok_reachable g : reachable_graph inverse g → frames_ok g.
Proof.
  induction 1 as [|nm g Hrg IH|from to sd g g' Hrg IH H|from to g g' Hrg IH H|k g Hrg IH].
  - intros l v. simpl. rewrite lookup_empty, lookup_nil. done.
  - apply frames_ok_addEntity; [by eapply reachable_graph_ok|done].
  - destruct (updateSensorData_frames _ _ _ _ _ _ H) as [Hv Hl].
    unfold frames_ok. by rewrite Hv, Hl.
  - unfold removeAllEdges, remove_edge_by_label in H.
    destruct (vertex_by_label from g); [|done].
    destruct (vertex_by_label to g); by injection H as <-.
  - done.
Qed.

(** X3. In every state the member functions can reach, labels and
    vertices correspond one to one: a name resolves to the vertex that
    carries it, every vertex carries a name that resolves to it, so two
    names never share a vertex, and there are as many labels as
    vertices. *)
Theorem reachable_frames_ok g :
  reachable_graph inverse g →
  frames_ok g ∧
  (∀ v, v < num_vertices g → labels g !! name_of g v = Some v) ∧
  (∀ l l' v, labels g !! l = Some v → labels g !! l' = Some v → l = l').
Proof.
  intros Hrg. pose proof (frames_ok_reachable g Hrg) as Hf.
  split; [done|]. split.
  - intros v Hv. unfold name_of.
    destruct (vertices g !! v) as [[nm]|] eqn:E.
    + by apply Hf.
    + apply lookup_ge_None in E. unfold num_vertices in Hv. lia.
  - intros l l' v Hl Hl'. apply Hf in Hl, Hl'. congruence.
Qed.

(** X4. removeAllEdges works in one direction: for two registered frames
    it returns, keeps vertices and labels, and keeps exactly the edges
    that do not run from [from] to [to], in their order; so no edge from
    [from] to [to] is left, and between distinct frames the edges from
    [to] back to [from] all stay. *)
Theorem removeAllEdges_directional from to g u v :
  labels g !! from = Some u → labels g !! to = Some v →
  ∃ g', removeAllEdges from to g = Returned g' ∧
        vertices g' = vertices g ∧ labels g' = labels g ∧
        edges g' = filter (λ e, ¬ (source e = u ∧ target e = v)) (edges g) ∧
        ¬ has_edge g' u v ∧
        (u ≠ v → ∀ e, source e = v → target e = u → (e ∈ edges g' ↔ e ∈ edges g)) ∧
        numberOfEdges g' ≤ numberOfEdges g.
Proof.
  intros Hu Hv. unfold removeAllEdges, remove_edge_by_label, vertex_by_label.
  rewrite Hu, Hv. eexists. split; [done|]. simpl.
  split; [done|]. split; [done|]. split; [done|]. split; [|split].
  - intros (e & He & Hs & Ht). simpl in He.
    apply list_elem_of_filter in He as [Hn _]. by apply Hn.
  - intros Hne e Hs Ht. rewrite list_elem_of_filter. split; [by intros [_ ?]|].
    intros He. split; [|done]. intros [Hs' Ht']. congruence.
  - unfold numberOfEdges, num_edges. simpl. apply length_filter.
Qed.

(** *** Keys *)

Lemma filter_none {A} (P : A → Prop) `{!∀ x, Decision (P x)} (l : list A) :
  (∀ x, x ∈ l → ¬ P x) → filter P l = [].
Proof.
  induction l as [|x l IH]; intros Hn; [done|].
  rewrite filter_cons_False by (apply Hn, list_elem_of_here).
  apply IH. intros y Hy. by apply Hn, list_elem_of_further.
Qed.

Lemma length_filter_sublist {A} (P : A → Prop) `{!∀ x, Decision (P x)}
    (l1 l2 : list A) :
  sublist l1 l2 → length (filter P l1) ≤ length (filter P l2).
Proof.
  intros Hs. apply submseteq_length, sublist_submseteq.
  induction Hs as [|x l1 l2 Hs IHs|x l1 l2 Hs IHs]; [done| |].
  - destruct (decide (P x)).
    + rewrite !filter_cons_True by done. by constructor.
    + by rewrite !filter_cons_False by done.
  - destruct (decide (P x)).
    + rewrite filter_cons_True by done. by constructor.
    + by rewrite filter_cons_False by done.
Qed.

Lemma filter_other_key k k' (es : list (Edge MeasurementKey Transform)) :
  k ≠ k' →
  filter (λ e, edge_key e = k) (filter (λ e, edge_key e ≠ k') es)
  = filter (λ e, edge_key e = k) es.
Proof.
  intros Hne. induction es as [|e es IH]; [done|].
  destruct (decide (edge_key e = k')) as [Hk'|Hk'].
  - rewrite (filter_cons_False (λ e, edge_key e ≠ k')) by (by intros []).
    rewrite IH. rewrite filter_cons_False; [done|]. congruence.
  - rewrite (filter_cons_True (λ e, edge_key e ≠ k')) by done.
    destruct (decide (edge_key e = k)) as [Hk|Hk].
    + by rewrite !filter_cons_True, IH by done.
    + by rewrite !filter_cons_False, IH by done.
Qed.

Lemma filter_key_update k (sd : SensorData MeasurementKey Transform)
    (es : list (Edge MeasurementKey Transform)) fwd back :
  edge_key fwd = key sd → edge_key back = key sd →
  filter (λ e, edge_key e = k)
    (filter (λ e, edge_key e ≠ key sd) es ++ [fwd; back])
  = if decide (k = key sd) then [fwd; back]
    else filter (λ e, edge_key e = k) es.
Proof.
  intros Hf Hb. rewrite filter_app. case_decide as Hk.
  - subst k. rewrite filter_none.
    + by rewrite !filter_cons_True by done.
    + intros e He. by apply list_elem_of_filter in He as [? _].
  - rewrite filter_other_key by done.
    rewrite !filter_cons_False by congruence. by rewrite app_nil_r.
Qed.

Lemma updateSensorData_keys from to sd g g' k :
  updateSensorData inverse from to sd g = Returned g' →
  ∃ fwd back,
    edges_with_key k g' = if decide (k = key sd) then [fwd; back]
                          else edges_with_key k g.
Proof.
  destruct (labels g !! from) as [u|] eqn:Hu;
    [destruct (labels g !! to) as [v|] eqn:Hv|].
  - rewrite (updateSensorData_known _ _ _ _ _ _ _ Hu Hv). intros [= <-].
    eexists _, _. unfold edges_with_key. simpl. by apply filter_key_update.
  - by rewrite updateSensorData_unknown by by right.
  - by rewrite updateSensorData_unknown by by left.
Qed.

(** X5. Readings replace, they do not pile up: in every state the member
    functions can reach, at most two edges carry any given key, and right
    after updateSensorData exactly two edges carry the key of the reading
    while the edges of every other key are the ones before the call. *)
Theorem at_most_two_per_key g :
  reachable_graph inverse g →
  (∀ k, length (edges_with_key k g) ≤ 2) ∧
  (∀ from to sd g', updateSensorData inverse from to sd g = Returned g' →
     length (edges_with_key (key sd) g') = 2 ∧
     ∀ k, k ≠ key sd → edges_with_key k g' = edges_with_key k g).
Proof.
  intros Hrg. split.
  - induction Hrg as [|nm g Hrg IH|from to sd g g' Hrg IH H
                      |from to g g' Hrg IH H|k' g Hrg IH]; intros k.
    + simpl. lia.
    + unfold edges_with_key, addEntity, add_vertex, vertex_by_label in *.
      destruct (labels g !! nm) as [w|] eqn:Hnm; simpl.
      * rewrite Hnm. apply IH.
      * rewrite lookup_insert_eq. apply IH.
    + destruct (updateSensorData_keys _ _ _ _ _ k H) as (fwd & back & ->).
      case_decide; [simpl; lia|apply IH].
    + unfold removeAllEdges, remove_edge_by_label in H.
      destruct (vertex_by_label from g); [|done].
      destruct (vertex_by_label to g); [|injection H as <-; apply IH].
      injection H as <-. unfold edges_with_key in *. simpl.
      etrans; [|apply (IH k)]. apply length_filter_sublist, sublist_filter.
    + unfold edges_with_key, removeEdgeByKey in *. simpl.
      rewrite removeEdgeByKey_loop_filter.
      etrans; [|apply (IH k)]. apply length_filter_sublist, sublist_filter.
  - intros from to sd g' H. split.
    + destruct (updateSensorData_keys _ _ _ _ _ (key sd) H) as (fwd & back & ->).
      by rewrite decide_True.
    + intros k Hk.
      destruct (updateSensorData_keys _ _ _ _ _ k H) as (fwd & back & ->).
      by rewrite decide_False.
Qed.

(** X6. A later reading of the same key wins, whatever its frames: when
    a call of updateSensorData has returned, a second call with the same
    key gives the graph it would have given without the first. *)
Theorem update_supersedes f1 t1 sd1 f2 t2 sd2 g g1 :
  updateSensorData inverse f1 t1 sd1 g = Returned g1 →
  key sd1 = key sd2 →
  updateSensorData inverse f2 t2 sd2 g1 = updateSensorData inverse f2 t2 sd2 g.
Proof.
  clear uninitialized dijkstra_predecessors. intros H1 Hk.
  assert (∃ fwd back,
            g1 = {| vertices := vertices g;
                    edges := filter (λ e, edge_key e ≠ key sd1) (edges g)
                             ++ [fwd; back];
                    labels := labels g |} ∧
            edge_key fwd = key sd1 ∧ edge_key back = key sd1)
    as (fwd & back & -> & Hf & Hb).
  { destruct (labels g !! f1) as [u1|] eqn:Hu1;
      [destruct (labels g !! t1) as [v1|] eqn:Hv1|].
    - rewrite (updateSensorData_known _ _ _ _ _ _ _ Hu1 Hv1) in H1.
      injection H1 as <-. by eexists _, _.
    - by rewrite updateSensorData_unknown in H1 by by right.
    - by rewrite updateSensorData_unknown in H1 by by left. }
  clear H1.
  destruct (labels g !! f2) as [u|] eqn:Hu;
    [destruct (labels g !! t2) as [v|] eqn:Hv2|].
  - rewrite (updateSensorData_known inverse f2 t2 sd2 g u v Hu Hv2).
    rewrite (updateSensorData_known inverse f2 t2 sd2 _ u v) by done.
    simpl. do 3 f_equal. rewrite filter_app, <- Hk.
    rewrite !filter_cons_False by (by intros []). rewrite app_nil_r.
    rewrite list_filter_filter. apply list_filter_iff. tauto.
  - rewrite !updateSensorData_unknown; [done|by right|by right].
  - rewrite !updateSensorData_unknown; [done|by left|by left].
Qed.

(** X7. removeEdgeByKey and the other calls: a key no edge carries
    leaves the graph as it is; removals of two keys commute; the number of
    edges goes down by the number of edges that carried the key; and
    removing the key of a reading right after updateSensorData gives the
    graph that removing it before the reading would have given. *)
Theorem removeEdgeByKey_algebra k k' g :
  (edges_with_key k g = [] → removeEdgeByKey k g = g) ∧
  removeEdgeByKey k (removeEdgeByKey k' g) = removeEdgeByKey k' (removeEdgeByKey k g) ∧
  numberOfEdges (removeEdgeByKey k g) + length (edges_with_key k g) = numberOfEdges g ∧
  (∀ from to sd g', key sd = k →
     updateSensorData inverse from to sd g = Returned g' →
     removeEdgeByKey k g' = removeEdgeByKey k g).
Proof.
  unfold removeEdgeByKey, numberOfEdges, num_edges, edges_with_key. simpl.
  rewrite !removeEdgeByKey_loop_filter.
  split; [|split; [|split]].
  - intros Hnone. destruct g as [vs es ls]. simpl in *. f_equal.
    apply filter_all, Forall_forall. intros e He Hk.
    assert (e ∈ filter (λ e, edge_key e = k) es) as Hin
      by by apply list_elem_of_filter.
    rewrite Hnone in Hin. by apply elem_of_nil in Hin.
  - f_equal. rewrite !list_filter_filter. apply list_filter_iff. tauto.
  - pose proof (filter_app_complement (λ e, edge_key e = k) (edges g)) as Hp.
    apply Permutation_length in Hp. rewrite length_app in Hp.
    rewrite <- Hp. lia.
  - intros from to sd g' <- H.
    destruct (labels g !! from) as [u|] eqn:Hu;
      [destruct (labels g !! to) as [v|] eqn:Hv|].
    + rewrite (updateSensorData_known _ _ _ _ _ _ _ Hu Hv) in H.
      injection H as <-. simpl. rewrite !removeEdgeByKey_loop_filter. f_equal.
      rewrite filter_app. rewrite !filter_cons_False by (by intros []).
      rewrite app_nil_r, list_filter_filter. apply list_filter_iff. tauto.
    + by rewrite updateSensorData_unknown in H by by right.
    + by rewrite updateSensorData_unknown in H by by left.
Qed.

(** *** Mirror edges *)

Lemma edges_addEntity nm g : edges (addEntity nm g) = edges g.
Proof.
  unfold addEntity, add_vertex, vertex_by_label.
  destruct (labels g !! nm) as [w|] eqn:Hnm; simpl.
  - by rewrite Hnm.
  - by rewrite lookup_insert_eq.
Qed.

Lemma mirrored_filter_key k g :
  mirrored inverse g →
  ∀ e, e ∈ filter (λ e, edge_key e ≠ k) (edges g) →
  ∃ e', e' ∈ filter (λ e, edge_key e ≠ k) (edges g) ∧ mirror_of inverse e e'.
Proof.
  intros Hm e [Hk He]%list_elem_of_filter.
  destruct (Hm e He) as (e' & He' & Hmir). exists e'. split; [|done].
  apply list_elem_of_filter. split; [|done].
  destruct Hmir as (_ & _ & Hkey & _). congruence.
Qed.

(** X8. Mirror edges are kept by addEntity, removeEdgeByKey and
    updateSensorData: if every edge of the graph has an edge running
    against it with the same key and the inverse transform on one of the
    two, so it is after any of these calls; and in such a graph a direct
    edge one way means a direct edge the other way. *)
Theorem mirrored_kept g :
  mirrored inverse g →
  (∀ nm, mirrored inverse (addEntity nm g)) ∧
  (∀ k, mirrored inverse (removeEdgeByKey k g)) ∧
  (∀ from to sd g', updateSensorData inverse from to sd g = Returned g' →
                    mirrored inverse g') ∧
  (∀ u v, has_edge g u v → has_edge g v u).
Proof.
  intros Hm. split; [|split; [|split]].
  - intros nm e. rewrite edges_addEntity. apply Hm.
  - intros k e. unfold removeEdgeByKey. simpl.
    rewrite removeEdgeByKey_loop_filter. by apply mirrored_filter_key.
  - intros from to sd g'.
    destruct (labels g !! from) as [u|] eqn:Hu;
      [destruct (labels g !! to) as [v|] eqn:Hv|].
    + rewrite (updateSensorData_known _ _ _ _ _ _ _ Hu Hv). intros [= <-] e.
      simpl. intros [He|He]%elem_of_app.
      * destruct (mirrored_filter_key _ _ Hm e He) as (e' & He' & Hmir).
        exists e'. split; [|done]. apply elem_of_app. by left.
      * apply elem_of_cons in He as [->|He].
        -- eexists. split.
           { apply elem_of_app. right. apply list_elem_of_further, list_elem_of_here. }
           unfold mirror_of, edge_key. simpl. auto.
        -- apply list_elem_of_singleton in He as ->. eexists. split.
           { apply elem_of_app. right. apply list_elem_of_here. }
           unfold mirror_of, edge_key. simpl. auto.
    + by rewrite updateSensorData_unknown by by right.
    + by rewrite updateSensorData_unknown by by left.
  - intros u v (e & He & <- & <-). destruct (Hm e He) as (e' & He' & Hs & Ht & _).
    by exists e'.
Qed.

(** *** Path queries *)

Lemma reachable_trans g a b c : reachable g a b → reachable g b c → reachable g a c.
Proof.
  intros Hab Hbc. induction Hbc as [|u v Hbu IH Huv]; [done|]. by econstructor.
Qed.

Lemma reachable_sym g s t :
  (∀ u v, has_edge g u v → has_edge g v u) → reachable g s t → reachable g t s.
Proof.
  intros Hsym Hst. induction Hst as [|u v Hsu IH Huv]; [constructor|].
  apply (reachable_trans g v u s); [|done].
  apply (reachable_step g v v u); [constructor|by apply Hsym].
Qed.

Lemma canTransform_cases fuel from to g s t :
  graph_ok g →
  labels g !! from = Some s → labels g !! to = Some t →
  num_vertices g ≤ num_edges g →
  dijkstra_contract g s (dijkstra_predecessors g s) →
  num_vertices g ≤ fuel →
  (s ≠ t ∧ reachable g s t ∧
   canTransform dijkstra_predecessors fuel from to g = Returned true)
  ∨ (¬ (s ≠ t ∧ reachable g s t) ∧
     canTransform dijkstra_predecessors fuel from to g = Returned false).
Proof.
  intros Hok Hs Ht Hm Hc Hfuel.
  pose proof (lookup_lt_Some _ _ _ (ok_labels _ Hok _ _ Ht)) as Htn.
  unfold canTransform.
  destruct (decide (dijkstra_predecessors g s t = t)) as [Hp|Hp].
  - right. rewrite (lookupPath_at_root _ _ _ _ _ s t) by done. split; [|done].
    intros [Hne Hre]. by apply (dc_reached _ _ _ Hc t Htn Hre).
  - destruct (dc_tree _ _ _ Hc t Htn Hp) as [vs Hvs].
    rewrite (lookupPath_along _ _ _ _ _ _ _ _ Hok Hs Ht Hm Hc Hfuel Hvs).
    assert (s ≠ t) as Hne by (intros ->; by apply Hp, (dc_root _ _ _ Hc)).
    left. split; [done|]. split; [by eapply pred_path_reachable|].
    destruct (pred_path_ends _ _ _ _ _ Hvs) as (ws & -> & Hh).
    destruct ws as [|w [|w' ws]]; simpl in *; [congruence|done|done].
Qed.

(** X9. canTransform on two registered frames, in a graph with at least as
    many edges as vertices and with the library's search keeping its
    contract, returns true exactly when the frames are distinct and the
    goal can be reached through stored edges; from a frame to itself it
    returns false. *)
Theorem canTransform_connected fuel from to g s t :
  graph_ok g →
  labels g !! from = Some s → labels g !! to = Some t →
  num_vertices g ≤ num_edges g →
  dijkstra_contract g s (dijkstra_predecessors g s) →
  num_vertices g ≤ fuel →
  ∃ b, canTransform dijkstra_predecessors fuel from to g = Returned b ∧
       (b = true ↔ s ≠ t ∧ reachable g s t).
Proof.
  intros Hok Hs Ht Hm Hc Hfuel.
  destruct (canTransform_cases fuel from to g s t Hok Hs Ht Hm Hc Hfuel)
    as [(Hne & Hre & ->)|[Hno ->]].
  - exists true. split; [done|]. by split.
  - exists false. split; [done|]. split; [done|]. intros H. by destruct Hno.
Qed.

(** X10. In a graph whose edges all have their mirror, canTransform gives
    the same answer in both directions (for registered frames, in a graph
    with at least as many edges as vertices, the library's search keeping
    its contract from either frame). *)
Theorem canTransform_symmetric fuel from to g s t :
  graph_ok g → mirrored inverse g →
  labels g !! from = Some s → labels g !! to = Some t →
  num_vertices g ≤ num_edges g →
  dijkstra_contract g s (dijkstra_predecessors g s) →
  dijkstra_contract g t (dijkstra_predecessors g t) →
  num_vertices g ≤ fuel →
  canTransform dijkstra_predecessors fuel from to g
  = canTransform dijkstra_predecessors fuel to from g.
Proof.
  intros Hok Hmir Hs Ht Hm Hcs Hct Hfuel.
  assert (∀ u v, has_edge g u v → has_edge g v u) as Hsym.
  { intros u v (e & He & <- & <-).
    destruct (Hmir e He) as (e' & He' & Hs' & Ht' & _). by exists e'. }
  destruct (canTransform_cases fuel from to g s t Hok Hs Ht Hm Hcs Hfuel)
    as [(Hne & Hre & ->)|[Hno ->]];
  destruct (canTransform_cases fuel to from g t s Hok Ht Hs Hm Hct Hfuel)
    as [(Hne' & Hre' & ->)|[Hno' ->]]; try done.
  - destruct Hno'. split; [done|]. by apply reachable_sym.
  - destruct Hno. split; [done|]. by apply reachable_sym.
Qed.

(** X11. A path that lookupPath returns is simple: no frame is listed
    twice, every listed name is a registered frame, and the list is no
    longer than the number of frames (for registered frames, labels and
    vertices in one-to-one correspondence, at least as many edges as
    vertices, the library's search keeping its contract). *)
Theorem lookupPath_simple fuel from to g s t :
  graph_ok g → frames_ok g →
  labels g !! from = Some s → labels g !! to = Some t →
  num_vertices g ≤ num_edges g →
  dijkstra_contract g s (dijkstra_predecessors g s) →
  num_vertices g ≤ fuel →
  ∃ names, lookupPath dijkstra_predecessors fuel from to g = Returned names ∧
           NoDup names ∧ length names ≤ num_vertices g ∧
           ∀ nm, nm ∈ names → is_Some (labels g !! nm).
Proof.
  intros Hok Hf Hs Ht Hm Hc Hfuel.
  pose proof (lookup_lt_Some _ _ _ (ok_labels _ Hok _ _ Ht)) as Htn.
  destruct (decide (dijkstra_predecessors g s t = t)) as [Hp|Hp].
  - exists []. split; [by apply (lookupPath_at_root _ _ _ _ _ s t)|].
    split; [constructor|]. split; [simpl; lia|]. by intros nm ?%elem_of_nil.
  - destruct (dc_tree _ _ _ Hc t Htn Hp) as [vs Hvs].
    assert (∀ v, v ∈ vs → labels g !! name_of g v = Some v) as Hname.
    { intros v Hv.
      pose proof (pred_path_bounded _ _ _ _ _ _ (dc_range _ _ _ Hc) Htn Hvs) as Hb.
      rewrite Forall_forall in Hb. specialize (Hb v Hv). unfold name_of.
      destruct (vertices g !! v) as [[nm]|] eqn:E.
      - by apply Hf.
      - apply lookup_ge_None in E. unfold num_vertices in Hb. lia. }
    assert (NoDup (name_of g <$> vs)) as Hnd.
    { apply NoDup_fmap_2_strong; [|by eapply pred_path_NoDup].
      intros x y Hx Hy Hxy. apply Hname in Hx, Hy. congruence. }
    assert (length (name_of g <$> vs) ≤ num_vertices g) as Hlen.
    { rewrite length_fmap.
      by eapply pred_path_length; [apply (dc_range _ _ _ Hc)| |]. }
    exists (match vs with [_] => [] | _ => name_of g <$> vs end).
    split; [by eapply lookupPath_along|].
    destruct vs as [|v1 [|v2 vs]].
    + split; [constructor|]. split; [simpl; lia|]. by intros nm ?%elem_of_nil.
    + split; [constructor|]. split; [simpl; lia|]. by intros nm ?%elem_of_nil.
    + split; [done|]. split; [done|].
      intros nm (v & -> & Hv)%list_elem_of_fmap. rewrite (Hname v Hv). by eexists.
Qed.

(** X12. With fewer edges than vertices no path query has a defined
    result, whatever the frames: the predecessor vector has one cell per
    edge and the search writes one cell per vertex. This is so in
    particular while the graph has frames but no measurement yet. *)
Theorem lookupPath_undersized fuel from to g :
  num_edges g < num_vertices g →
  lookupPath dijkstra_predecessors fuel from to g = Undefined OutOfRange ∧
  canTransform dijkstra_predecessors fuel from to g = Undefined OutOfRange ∧
  lookupTransform uninitialized dijkstra_predecessors fuel from to g
  = Undefined OutOfRange.
Proof.
  intros Hlt.
  assert (lookupPath dijkstra_predecessors fuel from to g = Undefined OutOfRange) as H.
  { unfold lookupPath, dijkstra_shortest_paths.
    destruct (replicate (num_edges g) 0) as [|x p0] eqn:E; [done|].
    rewrite decide_False; [done|].
    rewrite <- E, length_replicate. lia. }
  unfold canTransform, lookupTransform. by rewrite H.
Qed.

End GraphCoverage.

(** * Further properties of the filters *)

Section FilterCoverage.
Import ExplonentialMovingAverageFilter.

Lemma checkReinit_keeps now st : keeps_history now st → checkReinit now st = st.
Proof.
  intros [H0|Hlt]; unfold checkReinit.
  - by rewrite decide_True.
  - case_decide; [done|]. rewrite decide_False; [done|lia].
Qed.

Lemma addScalar_blend x now now' st :
  m_scalarInitialized st = true → keeps_history now st →
  addScalar x now now' st
  = set_scalar (m_alpha st * x + (1 - m_alpha st) * m_scalarAccu st)%Qc now' st.
Proof.
  intros Hi Hk. unfold addScalar. by rewrite (checkReinit_keeps now st Hk), Hi.
Qed.

Lemma addScalars_frozen calls st :
  m_alpha st = 0%Qc → m_scalarInitialized st = true →
  keeps_history_all (m_timeout st) (m_timeOfLastValue st) calls →
  scalar (addScalars calls st) = scalar st.
Proof.
  revert st. induction calls as [|[[x now] now'] calls IH]; intros st Ha Hi Hk.
  - done.
  - destruct Hk as [Hk Hrest]. unfold addScalars. cbn [foldl fst snd].
    rewrite (addScalar_blend x now now' st Hi Hk), Ha.
    fold (addScalars calls
            (set_scalar (0 * x + (1 - 0) * m_scalarAccu st)%Qc now' st)).
    rewrite IH; [|done|done|exact Hrest].
    unfold scalar, set_scalar. cbn [m_scalarAccu]. ring.
Qed.

Lemma addScalars_following calls st :
  m_alpha st = 1%Qc → m_scalarInitialized st = true →
  keeps_history_all (m_timeout st) (m_timeOfLastValue st) calls →
  scalar (addScalars calls st) = default (scalar st) (last (calls.*1.*1)).
Proof.
  revert st. induction calls as [|[[x now] now'] calls IH]; intros st Ha Hi Hk.
  - done.
  - destruct Hk as [Hk Hrest]. unfold addScalars. cbn [foldl fst snd].
    rewrite (addScalar_blend x now now' st Hi Hk), Ha.
    fold (addScalars calls
            (set_scalar (1 * x + (1 - 1) * m_scalarAccu st)%Qc now' st)).
    rewrite IH; [|done|done|exact Hrest].
    rewrite !fmap_cons. cbn [fst]. rewrite last_cons.
    replace (scalar (set_scalar (1 * x + (1 - 1) * m_scalarAccu st)%Qc now' st))
      with x by (unfold scalar, set_scalar; cbn [m_scalarAccu]; ring).
    by destruct (last (calls.*1.*1)).
Qed.

(** X13. The two ends of the blend, over a run of scalar samples none of
    which is the first of its channel (the channel is initialised, and at
    every call the timeout is off or has not run out). After setAlpha(0)
    the filter is frozen: the estimate after the run is the one before it,
    whatever the samples. After setAlpha(1) the filter follows: the
    estimate after the run is the last sample. *)
Theorem blend_end_points (calls : list (Qc * Z * Z)) (st : state) :
  m_scalarInitialized st = true →
  keeps_history_all (m_timeout st) (m_timeOfLastValue st) calls →
  scalar (addScalars calls (setAlpha 0%Qc st)) = scalar st ∧
  scalar (addScalars calls (setAlpha 1%Qc st))
  = default (scalar st) (last (calls.*1.*1)).
Proof.
  intros Hi Hk. split.
  - by rewrite addScalars_frozen.
  - by rewrite addScalars_following.
Qed.

(** X14. A timeout that has run out restarts all three channels, whichever
    one receives the sample: after the add the other two channels are not
    initialised, their estimates still being the old ones, and each takes
    its next sample as its estimate unchanged. *)
Theorem expiry_restarts_all (slerp : Quaternion → Quaternion → Qc → Quaternion)
    (x : Qc) (v : Vector3) (q : Quaternion) (now now' t t' : Z) (st : state) :
  m_timeout st ≠ 0%Z → (m_timeout st ≤ now - m_timeOfLastValue st)%Z →
  (let st' := addScalar x now now' st in
   m_vecInitialized st' = false ∧ m_quatInitialized st' = false ∧
   vec3 st' = vec3 st ∧ quat st' = quat st ∧
   vec3 (addVec3 v t t' st') = v ∧ quat (addQuat slerp q t t' st') = q) ∧
  (let st' := addVec3 v now now' st in
   m_scalarInitialized st' = false ∧ m_quatInitialized st' = false ∧
   scalar st' = scalar st ∧ quat st' = quat st ∧
   scalar (addScalar x t t' st') = x ∧ quat (addQuat slerp q t t' st') = q) ∧
  (let st' := addQuat slerp q now now' st in
   m_scalarInitialized st' = false ∧ m_vecInitialized st' = false ∧
   scalar st' = scalar st ∧ vec3 st' = vec3 st ∧
   scalar (addScalar x t t' st') = x ∧ vec3 (addVec3 v t t' st') = v).
Proof.
  intros H0 Hle.
  assert (∀ st1 c, checkReinit c st1 = st1 ∨ checkReinit c st1 = reset st1) as Hcr.
  { intros st1 c. unfold checkReinit. repeat case_decide; auto. }
  unfold addScalar, addVec3, addQuat.
  rewrite !(checkReinit_takes_first now st (conj H0 Hle)). simpl.
  repeat split;
    match goal with
    | |- context [checkReinit ?c ?s] => destruct (Hcr s c) as [-> | ->]; done
    end.
Qed.

(** X15. An add never changes the estimates of the other channels, the
    smoothing factor or the timeout, and it stamps the filter with the
    second reading of the clock; while the history is kept it leaves the
    flags of the other channels alone as well. *)
Theorem add_leaves_the_rest (slerp : Quaternion → Quaternion → Qc → Quaternion)
    (x : Qc) (v : Vector3) (q : Quaternion) (now now' : Z) (st : state) :
  (let st' := addScalar x now now' st in
   vec3 st' = vec3 st ∧ quat st' = quat st ∧
   alpha st' = alpha st ∧ m_timeout st' = m_timeout st ∧
   timeOfLastValue st' = now' ∧
   (keeps_history now st →
    m_vecInitialized st' = m_vecInitialized st ∧
    m_quatInitialized st' = m_quatInitialized st)) ∧
  (let st' := addVec3 v now now' st in
   scalar st' = scalar st ∧ quat st' = quat st ∧
   alpha st' = alpha st ∧ m_timeout st' = m_timeout st ∧
   timeOfLastValue st' = now' ∧
   (keeps_history now st →
    m_scalarInitialized st' = m_scalarInitialized st ∧
    m_quatInitialized st' = m_quatInitialized st)) ∧
  (let st' := addQuat slerp q now now' st in
   scalar st' = scalar st ∧ vec3 st' = vec3 st ∧
   alpha st' = alpha st ∧ m_timeout st' = m_timeout st ∧
   timeOfLastValue st' = now' ∧
   (keeps_history now st →
    m_scalarInitialized st' = m_scalarInitialized st ∧
    m_vecInitialized st' = m_vecInitialized st)).
Proof.
  assert (checkReinit now st = st ∨ checkReinit now st = reset st) as Hcr.
  { unfold checkReinit. repeat case_decide; auto. }
  unfold addScalar, addVec3, addQuat. cbv zeta.
  split; [|split].
  - split; [|split; [|split; [|split; [|split]]]];
      try (intros Hk; rewrite (checkReinit_keeps now st Hk));
      try (destruct Hcr as [-> | ->]); simpl;
      try destruct (m_scalarInitialized st); done.
  - split; [|split; [|split; [|split; [|split]]]];
      try (intros Hk; rewrite (checkReinit_keeps now st Hk));
      try (destruct Hcr as [-> | ->]); simpl;
      try destruct (m_vecInitialized st); done.
  - split; [|split; [|split; [|split; [|split]]]];
      try (intros Hk; rewrite (checkReinit_keeps now st Hk));
      try (destruct Hcr as [-> | ->]); simpl;
      try destruct (m_quatInitialized st); done.
Qed.

(** X16. addPose on a filter whose channels are not initialised stores the
    pose as it is: pose() then returns it, whatever the clock says. This
    is so on a filter that was just reset. *)
Theorem addPose_pose (slerp : Quaternion → Quaternion → Qc → Quaternion)
    (p : Pose) (t1 t1' t2 t2' : Z) (st : state) :
  m_vecInitialized st = false → m_quatInitialized st = false →
  pose (addPose slerp p t1 t1' t2 t2' st) = p ∧
  pose (addPose slerp p t1 t1' t2 t2' (reset st)) = p ∧
  m_quatInitialized (addPose slerp p t1 t1' t2 t2' st) = true.
Proof.
  assert (∀ st1 c, checkReinit c st1 = st1 ∨ checkReinit c st1 = reset st1) as Hcr.
  { intros st1 c. unfold checkReinit. repeat case_decide; auto. }
  assert (∀ st1, m_vecInitialized st1 = false → m_quatInitialized st1 = false →
                 pose (addPose slerp p t1 t1' t2 t2' st1) = p ∧
                 m_quatInitialized (addPose slerp p t1 t1' t2 t2' st1) = true) as H.
  { intros st1 Hv Hq. unfold addPose, addQuat, addVec3, pose, vec3, quat.
    destruct (Hcr st1 t1) as [-> | ->]; simpl; rewrite ?Hv; simpl;
      match goal with
      | |- context [checkReinit ?c ?s] => destruct (Hcr s c) as [-> | ->]
      end; simpl; rewrite ?Hq; simpl; by destruct p. }
  intros Hv Hq. destruct (H st Hv Hq) as [H1 H2].
  split; [done|]. split; [|done]. by apply H.
Qed.

End FilterCoverage.

Section WeightedMeanCoverage.
Import WeightedMean.

Lemma gram_row_snoc cols c i :
  gram_row (cols ++ [c]) i = v4_add (gram_row cols i) (v4_scale (v4_coeff c i) c).
Proof. unfold gram_row. by rewrite foldl_app. Qed.

Lemma gram_snoc_eq cols c c' :
  (∀ i, i < 4 → v4_scale (v4_coeff c i) c = v4_scale (v4_coeff c' i) c') →
  gram (cols ++ [c]) = gram (cols ++ [c']).
Proof.
  intros H. unfold gram. rewrite !gram_row_snoc.
  by rewrite (H 0), (H 1), (H 2), (H 3) by lia.
Qed.

Lemma gram_snoc_zero cols c :
  (∀ i, i < 4 → v4_scale (v4_coeff c i) c = v4_zero) →
  gram (cols ++ [c]) = gram cols.
Proof.
  intros H. unfold gram. rewrite !gram_row_snoc.
  rewrite (H 0), (H 1), (H 2), (H 3) by lia.
  assert (∀ a, v4_add a v4_zero = a) as Hz.
  { intros [a0 a1 a2 a3]. unfold v4_add, v4_zero. simpl. f_equal; ring. }
  by rewrite !Hz.
Qed.

(** X17. A rotation sample and its negation count the same: for any
    eigen solver, accumulating [q] or [-q], or [q] with the weight negated,
    gives the same mean rotation, since the matrix handed to the solver is
    the same. *)
Theorem weightedMeanQuat_sign (solver : Matrix4d → eigen)
    (q : Quaternion) (w : Qc) (st : state) :
  gram (m_quats (addQuat (q_neg q) w st)) = gram (m_quats (addQuat q w st)) ∧
  weightedMeanQuat solver (addQuat (q_neg q) w st)
  = weightedMeanQuat solver (addQuat q w st) ∧
  weightedMeanQuat solver (addQuat q (- w)%Qc st)
  = weightedMeanQuat solver (addQuat q w st).
Proof.
  assert (gram (m_quats (addQuat (q_neg q) w st)) = gram (m_quats (addQuat q w st)))
    as H1.
  { unfold addQuat. simpl. apply gram_snoc_eq. intros i Hi.
    destruct q as [x y z u].
    destruct i as [|[|[|[|i]]]]; [| | | |lia];
      unfold v4_scale, q_neg; simpl; f_equal; ring. }
  assert (gram (m_quats (addQuat q (- w)%Qc st)) = gram (m_quats (addQuat q w st)))
    as H2.
  { unfold addQuat. simpl. apply gram_snoc_eq. intros i Hi.
    destruct q as [x y z u].
    destruct i as [|[|[|[|i]]]]; [| | | |lia];
      unfold v4_scale; simpl; f_equal; ring. }
  split; [done|]. unfold weightedMeanQuat. by rewrite H1, H2.
Qed.

(** X18. A sample of weight zero changes neither mean: the vector mean
    after addVec3(v, 0) and the rotation mean after addQuat(q, 0) are the
    ones before. *)
Theorem zero_weight_sample (solver : Matrix4d → eigen)
    (v : Vector3) (q : Quaternion) (st : state) :
  weightedMeanVec3 (addVec3 v 0%Qc st) = weightedMeanVec3 st ∧
  weightedMeanQuat solver (addQuat q 0%Qc st) = weightedMeanQuat solver st.
Proof.
  split.
  - unfold weightedMeanVec3, addVec3. simpl.
    replace (m_vectorWeights st + 0)%Qc with (m_vectorWeights st) by ring.
    replace (v3_add (m_vectorWeightedSum st) (v3_times v 0%Qc))
      with (m_vectorWeightedSum st); [done|].
    destruct (m_vectorWeightedSum st) as [a b c], v as [x y z].
    unfold v3_add, v3_times. simpl. f_equal; ring.
  - unfold weightedMeanQuat, addQuat. cbn [m_quats].
    rewrite gram_snoc_zero; [done|].
    intros i Hi. destruct q as [x y z u].
    destruct i as [|[|[|[|i]]]]; [| | | |lia];
      unfold v4_scale, v4_zero, v4_coeff; cbn [c0 c1 c2 c3 q_x q_y q_z q_w];
      f_equal; ring.
Qed.

Lemma largest_fold (ev : Vector4d) n a i0 m0 :
  let r := foldl (largest_step ev) (i0, m0) (seq a n) in
  (m0 ≤ r.2)%Qc ∧
  (∀ j, a ≤ j < a + n → (Qcabs (v4_coeff ev j) ≤ r.2)%Qc) ∧
  (r = (i0, m0) ∨
   (a ≤ r.1 < a + n ∧ r.2 = Qcabs (v4_coeff ev r.1) ∧ (m0 < r.2)%Qc ∧
    ∀ j, a ≤ j < r.1 → (Qcabs (v4_coeff ev j) < r.2)%Qc)).
Proof.
  cbv zeta. revert a i0 m0.
  induction n as [|n IH]; intros a i0 m0; cbn [seq foldl].
  - split; [apply Qcle_refl|]. split; [intros j Hj; lia|by left].
  - assert (largest_step ev (i0, m0) a
            = if decide (m0 < Qcabs (v4_coeff ev a))%Qc
              then (a, Qcabs (v4_coeff ev a)) else (i0, m0)) as Hs by reflexivity.
    rewrite Hs. clear Hs.
    destruct (decide (m0 < Qcabs (v4_coeff ev a))%Qc) as [Hlt|Hge].
    + destruct (IH (S a) a (Qcabs (v4_coeff ev a))) as (Hm & Hall & Hcase).
      split; [eapply Qcle_trans; [apply Qclt_le_weak, Hlt|exact Hm]|].
      split.
      * intros j Hj. destruct (decide (j = a)) as [->|Hne]; [exact Hm|].
        apply Hall. lia.
      * right. destruct Hcase as [Heq|(Hr & Hv & Hlt' & Hfirst)].
        -- rewrite Heq. cbn [fst snd].
           split; [lia|]. split; [done|]. split; [done|]. intros j Hj. lia.
        -- split; [lia|]. split; [done|].
           split; [eapply Qclt_trans; [exact Hlt|exact Hlt']|].
           intros j Hj. destruct (decide (j = a)) as [->|Hne]; [exact Hlt'|].
           apply Hfirst. lia.
    + apply Qcnot_lt_le in Hge.
      destruct (IH (S a) i0 m0) as (Hm & Hall & Hcase).
      split; [exact Hm|]. split.
      * intros j Hj. destruct (decide (j = a)) as [->|Hne].
        -- eapply Qcle_trans; [exact Hge|exact Hm].
        -- apply Hall. lia.
      * destruct Hcase as [Heq|(Hr & Hv & Hlt' & Hfirst)]; [by left|].
        right. split; [lia|]. split; [done|]. split; [done|].
        intros j Hj. destruct (decide (j = a)) as [->|Hne].
        -- eapply Qcle_lt_trans; [exact Hge|exact Hlt'].
        -- apply Hfirst. lia.
Qed.

(** X19. The search over the eigenvalues picks the one of largest
    magnitude, the first of them on a tie: the index is below four, no
    eigenvalue has a larger magnitude, and every eigenvalue before it has
    a strictly smaller one. *)
Theorem largest_index_is_largest (ev : Vector4d) :
  largest_index ev < 4 ∧
  (∀ j, j < 4 →
     (Qcabs (v4_coeff ev j) ≤ Qcabs (v4_coeff ev (largest_index ev)))%Qc) ∧
  (∀ j, j < largest_index ev →
     (Qcabs (v4_coeff ev j) < Qcabs (v4_coeff ev (largest_index ev)))%Qc).
Proof.
  unfold largest_index.
  destruct (largest_fold ev 4 0 0 (- 1)%Qc) as (Hm & Hall & Hcase).
  destruct Hcase as [Heq|(Hr & Hv & Hlt & Hfirst)].
  - exfalso. rewrite Heq in Hall. simpl in Hall.
    specialize (Hall 0 ltac:(lia)).
    assert (0 ≤ Qcabs (v4_coeff ev 0))%Qc as Hn by apply Qcabs_nonneg.
    assert (0 ≤ - 1)%Qc as Hbad by (by eapply Qcle_trans).
    by apply Hbad.
  - rewrite <- Hv. split; [lia|]. split.
    + intros j Hj. apply Hall. lia.
    + intros j Hj. apply Hfirst. lia.
Qed.

End WeightedMeanCoverage.

(** * The further properties on concrete inputs *)

Section CoverageEvaluation.
Import Reference.
Import TransformGraph.

Lemma frames_AB_reachable : reachable_graph inverse frames_AB.
Proof. repeat apply rg_addEntity. apply rg_new. Qed.

Lemma frames_AB_ok : graph_ok frames_AB.
Proof. apply (reachable_graph_ok inverse), frames_AB_reachable. Qed.

Lemma scenario_frames_ok : frames_ok scenario.
Proof. apply (frames_ok_reachable inverse), scenario_reachable. Qed.

Lemma scenario_mirrored : mirrored inverse scenario.
Proof.
  intros e He. simpl in He.
  repeat (apply elem_of_cons in He as [->|He]);
    [exists (mk_edge 1 0 (mirror s1))|exists (mk_edge 0 1 s1)
    |exists (mk_edge 2 1 (mirror s2))|exists (mk_edge 1 2 s2)
    |by apply elem_of_nil in He];
    (split; [simpl; repeat first [apply list_elem_of_here|apply list_elem_of_further]
            |unfold mirror_of, edge_key; simpl; auto]).
Qed.

Lemma scenario_contract_from (s : Vertex) :
  s < 3 → dijkstra_contract scenario s (dijkstra_predecessors scenario s).
Proof. intros Hs. apply search_keeps_contract; [done|apply scenario_ok]. Qed.

Lemma addEntity_registers_witness :
  graph_ok frames_AB ∧
  ∃ v, vertex_by_label "C" (addEntity "C" frames_AB) = Some v ∧
       name_of (addEntity "C" frames_AB) v = "C" ∧
       addEntity "C" (addEntity "C" frames_AB) = addEntity "C" frames_AB.
Proof.
  split; [exact frames_AB_ok|].
  destruct (addEntity_registers "C" frames_AB frames_AB_ok)
    as (v & H1 & H2 & _ & _ & _ & H3).
  exists v. split; [exact H1|]. split; [exact H2|exact H3].
Defined.

Lemma frames_persist_witness :
  call inverse frames_AB pair_AB ∧ labels frames_AB !! "B" = Some 1 ∧
  labels pair_AB !! "B" = Some 1 ∧ num_vertices frames_AB ≤ num_vertices pair_AB.
Proof.
  assert (call inverse frames_AB pair_AB) as Hc
    by (apply (call_updateSensorData inverse "A" "B" s1); exact pair_AB_built).
  assert (labels frames_AB !! "B" = Some 1) as Hl by (vm_compute; reflexivity).
  split; [exact Hc|]. split; [exact Hl|].
  exact (frames_persist inverse frames_AB pair_AB "B" 1 Hc Hl).
Defined.

Lemma reachable_frames_ok_witness :
  reachable_graph inverse scenario ∧ frames_ok scenario ∧
  labels scenario !! name_of scenario 2 = Some 2.
Proof.
  split; [exact scenario_reachable|].
  destruct (reachable_frames_ok inverse scenario scenario_reachable) as (H1 & H2 & _).
  split; [exact H1|]. apply H2. vm_compute. lia.
Defined.

Lemma removeAllEdges_directional_witness :
  labels scenario !! "A" = Some 0 ∧ labels scenario !! "B" = Some 1 ∧
  ∃ g', removeAllEdges "A" "B" scenario = Returned g' ∧
        ¬ has_edge g' 0 1 ∧ mk_edge 1 0 (mirror s1) ∈ edges g'.
Proof.
  assert (labels scenario !! "A" = Some 0) as HA by (vm_compute; reflexivity).
  assert (labels scenario !! "B" = Some 1) as HB by (vm_compute; reflexivity).
  split; [exact HA|]. split; [exact HB|].
  destruct (removeAllEdges_directional "A" "B" scenario 0 1 HA HB)
    as (g' & H1 & _ & _ & _ & H2 & H3 & _).
  exists g'. split; [exact H1|]. split; [exact H2|].
  apply H3; [discriminate|reflexivity|reflexivity|].
  simpl. apply list_elem_of_further, list_elem_of_here.
Defined.

Lemma at_most_two_per_key_witness :
  reachable_graph inverse scenario ∧
  length (edges_with_key "s1" scenario) ≤ 2 ∧
  length (edges_with_key "s9" scenario) ≤ 2.
Proof.
  split; [exact scenario_reachable|].
  destruct (at_most_two_per_key inverse scenario scenario_reachable) as [H _].
  split; apply H.
Defined.

Lemma update_supersedes_witness :
  updateSensorData inverse "A" "B" s1 frames_ABC = Returned after_s1 ∧
  key s1 = key (reading "s1" (translation 0 0 3) 1%Qc) ∧
  updateSensorData inverse "B" "C" (reading "s1" (translation 0 0 3) 1%Qc) after_s1
  = updateSensorData inverse "B" "C" (reading "s1" (translation 0 0 3) 1%Qc) frames_ABC.
Proof.
  split; [exact after_s1_built|]. split; [reflexivity|].
  exact (update_supersedes inverse "A" "B" s1 "B" "C"
           (reading "s1" (translation 0 0 3) 1%Qc) frames_ABC after_s1
           after_s1_built eq_refl).
Defined.

Lemma mirrored_kept_witness :
  mirrored inverse frames_AB ∧ mirrored inverse pair_AB.
Proof.
  assert (mirrored inverse frames_AB) as Hm.
  { intros e He. vm_compute in He. apply elem_of_nil in He. destruct He. }
  split; [exact Hm|].
  destruct (mirrored_kept inverse frames_AB Hm) as (_ & _ & H & _).
  exact (H "A" "B" s1 pair_AB pair_AB_built).
Defined.

Lemma canTransform_connected_witness :
  graph_ok scenario ∧
  ∃ b, canTransform dijkstra_predecessors 3 "A" "C" scenario = Returned b ∧
       (b = true ↔ 0 ≠ 2 ∧ reachable scenario 0 2).
Proof.
  assert (labels scenario !! "A" = Some 0) as HA by (vm_compute; reflexivity).
  assert (labels scenario !! "C" = Some 2) as HC by (vm_compute; reflexivity).
  assert (num_vertices scenario ≤ num_edges scenario) as Hm by (vm_compute; lia).
  assert (num_vertices scenario ≤ 3) as Hf by (vm_compute; lia).
  assert (0 < 3) as H0 by lia.
  split; [exact scenario_ok|].
  exact (canTransform_connected dijkstra_predecessors 3 "A" "C" scenario 0 2
           scenario_ok HA HC Hm (scenario_contract_from 0 H0) Hf).
Defined.

Lemma canTransform_symmetric_witness :
  mirrored inverse scenario ∧
  canTransform dijkstra_predecessors 3 "A" "C" scenario
  = canTransform dijkstra_predecessors 3 "C" "A" scenario.
Proof.
  assert (labels scenario !! "A" = Some 0) as HA by (vm_compute; reflexivity).
  assert (labels scenario !! "C" = Some 2) as HC by (vm_compute; reflexivity).
  assert (num_vertices scenario ≤ num_edges scenario) as Hm by (vm_compute; lia).
  assert (num_vertices scenario ≤ 3) as Hf by (vm_compute; lia).
  assert (0 < 3) as H0 by lia.
  assert (2 < 3) as H2 by lia.
  split; [exact scenario_mirrored|].
  exact (canTransform_symmetric inverse dijkstra_predecessors 3 "A" "C" scenario 0 2
           scenario_ok scenario_mirrored HA HC Hm
           (scenario_contract_from 0 H0) (scenario_contract_from 2 H2) Hf).
Defined.

Lemma lookupPath_simple_witness :
  frames_ok scenario ∧
  ∃ names, lookupPath dijkstra_predecessors 3 "A" "C" scenario = Returned names ∧
           NoDup names ∧ length names ≤ num_vertices scenario.
Proof.
  assert (labels scenario !! "A" = Some 0) as HA by (vm_compute; reflexivity).
  assert (labels scenario !! "C" = Some 2) as HC by (vm_compute; reflexivity).
  assert (num_vertices scenario ≤ num_edges scenario) as Hm by (vm_compute; lia).
  assert (num_vertices scenario ≤ 3) as Hf by (vm_compute; lia).
  assert (0 < 3) as H0 by lia.
  split; [exact scenario_frames_ok|].
  destruct (lookupPath_simple dijkstra_predecessors 3 "A" "C" scenario 0 2
              scenario_ok scenario_frames_ok HA HC Hm
              (scenario_contract_from 0 H0) Hf) as (names & H1 & H2 & H3 & _).
  exists names. split; [exact H1|]. split; [exact H2|exact H3].
Defined.

Lemma lookupPath_undersized_witness :
  num_edges after_s1 < num_vertices after_s1 ∧
  lookupPath dijkstra_predecessors 3 "A" "B" after_s1 = Undefined OutOfRange ∧
  canTransform dijkstra_predecessors 3 "A" "B" after_s1 = Undefined OutOfRange.
Proof.
  assert (num_edges after_s1 < num_vertices after_s1) as H by (vm_compute; lia).
  split; [exact H|].
  destruct (lookupPath_undersized stale_memory dijkstra_predecessors 3 "A" "B"
              after_s1 H) as (H1 & H2 & _).
  split; [exact H1|exact H2].
Defined.

End CoverageEvaluation.

Section FilterCoverageEvaluation.
Import Reference.
Import ExplonentialMovingAverageFilter.

Lemma blend_end_points_witness :
  m_scalarInitialized warm_filter = true ∧
  keeps_history_all (m_timeout warm_filter) (m_timeOfLastValue warm_filter)
    [(Qc_of_Z 20, 3, 4); (Qc_of_Z 30, 6, 7)]%Z ∧
  scalar (addScalars [(Qc_of_Z 20, 3, 4); (Qc_of_Z 30, 6, 7)]%Z
            (setAlpha 0%Qc warm_filter)) = Qc_of_Z 10 ∧
  scalar (addScalars [(Qc_of_Z 20, 3, 4); (Qc_of_Z 30, 6, 7)]%Z
            (setAlpha 1%Qc warm_filter)) = Qc_of_Z 30.
Proof.
  assert (keeps_history_all (m_timeout warm_filter) (m_timeOfLastValue warm_filter)
            [(Qc_of_Z 20, 3, 4); (Qc_of_Z 30, 6, 7)]%Z) as Hk.
  { split; [right; vm_compute; reflexivity|].
    split; [right; vm_compute; reflexivity|exact I]. }
  split; [reflexivity|]. split; [exact Hk|].
  exact (blend_end_points [(Qc_of_Z 20, 3, 4); (Qc_of_Z 30, 6, 7)]%Z
           warm_filter eq_refl Hk).
Defined.

Lemma expiry_restarts_all_witness :
  m_timeout warm_filter ≠ 0%Z ∧
  (m_timeout warm_filter ≤ 7 - m_timeOfLastValue warm_filter)%Z ∧
  m_vecInitialized (addScalar (Qc_of_Z 20) 7 8 warm_filter) = false ∧
  m_quatInitialized (addScalar (Qc_of_Z 20) 7 8 warm_filter) = false.
Proof.
  assert (m_timeout warm_filter ≠ 0%Z) as H0 by discriminate.
  assert (m_timeout warm_filter ≤ 7 - m_timeOfLastValue warm_filter)%Z as Hle
    by (vm_compute; discriminate).
  split; [exact H0|]. split; [exact Hle|].
  destruct (expiry_restarts_all blend (Qc_of_Z 20) v3_zero q_identity 7 8 9 9
              warm_filter H0 Hle) as [(H1 & H2 & _) _].
  split; [exact H1|exact H2].
Defined.

Lemma addPose_pose_witness :
  m_vecInitialized warm_filter = false ∧ m_quatInitialized warm_filter = false ∧
  pose (addPose blend {| pos := v3_zero; rot := q_identity |} 1 1 2 2 warm_filter)
  = {| pos := v3_zero; rot := q_identity |}.
Proof.
  split; [reflexivity|]. split; [reflexivity|].
  exact (proj1 (addPose_pose blend {| pos := v3_zero; rot := q_identity |}
                  1 1 2 2 warm_filter eq_refl eq_refl)).
Defined.

End FilterCoverageEvaluation.
